(** * dirty: a lazily serialised HTML/XML element tree

    A shallow embedding of [dirty/__init__.py] (classes [RawString], [Tag]
    and [Element]) together with the part of the Python run time the module
    relies on: [str.strip], [str.replace], [cgi.escape], insertion-ordered
    [dict], truthiness, [iter]/[next] and caller-supplied generators.

    Layout: strings, Python values, dictionaries, [Element.__init__], the
    generator protocol of [Element.flat_children] and [Element.__iter__] as
    a step machine over a heap of generator objects, then the theorems. *)

From Stdlib Require Import String Ascii ZArith List Lia DecimalString.
From stdpp Require Import base option list strings gmap.

Open Scope string_scope.
Open Scope list_scope.

(** ** Strings *)

Module Str.

(** The one-character string holding the double quotation mark. *)
Definition dquote : string := String (ascii_of_nat 34) EmptyString.

(** [s.replace(old, new)] for a one-character [old]. *)
Fixpoint replace (old : ascii) (new : string) (s : string) : string :=
  match s with
  | EmptyString => EmptyString
  | String c r =>
      if Ascii.eqb c old then new +:+ replace old new r
      else String c (replace old new r)
  end.

(** [s.lstrip(c)] *)
Fixpoint lstrip (c : ascii) (s : string) : string :=
  match s with
  | EmptyString => EmptyString
  | String a r => if Ascii.eqb a c then lstrip c r else s
  end.

(** [s.rstrip(c)] *)
Fixpoint rstrip (c : ascii) (s : string) : string :=
  match s with
  | EmptyString => EmptyString
  | String a r =>
      match rstrip c r with
      | EmptyString => if Ascii.eqb a c then EmptyString else String a EmptyString
      | r' => String a r'
      end
  end.

(** [s.strip(c)] *)
Definition strip (c : ascii) (s : string) : string := rstrip c (lstrip c s).

(** [sep.join(parts)] with the empty separator. *)
Definition join (parts : list string) : string :=
  fold_right String.append EmptyString parts.

(** Does character [c] occur in [s]? *)
Fixpoint mem (c : ascii) (s : string) : bool :=
  match s with
  | EmptyString => false
  | String a r => Ascii.eqb a c || mem c r
  end.

End Str.

(** [cgi.escape(s, quote=None)] of the Python standard library: the three
    replacements are made in this order, the fourth only when [quote] is
    true. *)
Definition cgi_escape (s : string) (quote : bool) : string :=
  let s := Str.replace "&" "&amp;" s in
  let s := Str.replace "<" "&lt;" s in
  let s := Str.replace ">" "&gt;" s in
  if quote then Str.replace (ascii_of_nat 34) "&quot;" s else s.

(** ** Python values *)

(** Scalars: what an attribute value or a tag option can be in this model
    ([None], [bool], [int], [str]). *)
Inductive atom : Type :=
| ANone
| ABool (b : bool)
| AInt (n : Z)
| AStr (s : string).

(** [dict] with string keys.  Iteration order is insertion order; assigning
    to a key that is present keeps the key's position. *)
Definition dict : Type := list (string * atom).

(** [class Tag]: [self.name], [self.options]. *)
Record Tag : Type := mkTag { name : string; options : dict }.

(** [class Element(RawString)]: [self.tag], [self.children],
    [self.attributes]; the type of children is a parameter so that values
    and elements can refer to each other. *)
Record ElementOf (V : Type) : Type :=
  mkElement { tag : Tag; children : list V; attributes : dict }.
Arguments mkElement {V} _ _ _.
Arguments tag {V} _.
Arguments children {V} _.
Arguments attributes {V} _.

(** The objects that can be passed as positional arguments and children.
    [VGen g] is a reference to the generator object stored at address [g]
    of the heap; every other value is immutable. *)
#[local] Unset Elimination Schemes.
Inductive value : Type :=
| VNone
| VBool (b : bool)
| VInt (n : Z)
| VStr (s : string)
| VDict (d : dict)
| VList (l : list value)
| VTag (t : Tag)
| VRaw (raw_strings : list string)
| VElem (e : ElementOf value)
| VGen (g : nat).
#[local] Set Elimination Schemes.

Definition Element : Type := ElementOf value.

Inductive exn : Type :=
| TypeError (msg : string)
| Exception (msg : string).

Inductive result (A : Type) : Type :=
| Ok (a : A)
| Raised (e : exn).
Arguments Ok {A} _.
Arguments Raised {A} _.

(** [str(v)] on scalars. *)
Definition py_str (a : atom) : string :=
  match a with
  | ANone => "None"
  | ABool true => "True"
  | ABool false => "False"
  | AInt n => NilZero.string_of_int (Z.to_int n)
  | AStr s => s
  end.

(** [bool(v)] on scalars. *)
Definition atom_truthy (a : atom) : bool :=
  match a with
  | ANone => false
  | ABool b => b
  | AInt n => negb (Z.eqb n 0)
  | AStr s => negb (String.eqb s "")
  end.

(** [bool(v)]: [Tag], [RawString], [Element] and generators define neither
    [__bool__] nor [__len__], so they are always true. *)
Definition truthy (v : value) : bool :=
  match v with
  | VNone => false
  | VBool b => b
  | VInt n => negb (Z.eqb n 0)
  | VStr s => negb (String.eqb s "")
  | VDict d => match d with [] => false | _ => true end
  | VList l => match l with [] => false | _ => true end
  | VTag _ | VRaw _ | VElem _ | VGen _ => true
  end.

(** [type(v).__name__] *)
Definition type_name (v : value) : string :=
  match v with
  | VNone => "NoneType"
  | VBool _ => "bool"
  | VInt _ => "int"
  | VStr _ => "str"
  | VDict _ => "dict"
  | VList _ => "list"
  | VTag _ => "Tag"
  | VRaw _ => "RawString"
  | VElem _ => "Element"
  | VGen _ => "generator"
  end.

(** [isinstance(v, dict)] *)
Definition is_dict (v : value) : bool :=
  match v with VDict _ => true | _ => false end.

(** ** Dictionaries *)

Module Dict.

(** [d.get(k)] *)
Fixpoint get (d : dict) (k : string) : option atom :=
  match d with
  | [] => None
  | (k', v) :: r => if String.eqb k' k then Some v else get r k
  end.

(** [d[k] = v] *)
Fixpoint set (d : dict) (k : string) (v : atom) : dict :=
  match d with
  | [] => [(k, v)]
  | (k', v') :: r =>
      if String.eqb k' k then (k', v) :: r else (k', v') :: set r k v
  end.

(** [d.update(c)], also [dict(pairs)] when [d] is empty. *)
Definition update (d : dict) (c : list (string * atom)) : dict :=
  fold_left (fun acc kv => set acc (fst kv) (snd kv)) c d.

Definition of_items (items : list (string * atom)) : dict := update [] items.

Definition keys (d : dict) : list string := map fst d.

End Dict.

(** ** Construction *)

(** [name.strip("_").replace("_", "-")] *)
Definition normalize (key : string) : string :=
  Str.replace "_" "-" (Str.strip "_" key).

(** The loop [for c in children: if isinstance(c, dict): attributes.update(c)]. *)
Definition merge_dicts (kwargs : dict) (args : list value) : dict :=
  fold_left (fun acc c => match c with VDict d => Dict.update acc d | _ => acc end)
            args kwargs.

(** The generator expression handed to [dict(...)] in the last statement. *)
Definition normalized_items (merged : dict) : list (string * atom) :=
  flat_map (fun kv => match snd kv with
                      | ANone => []
                      | v => [(normalize (fst kv), v)]
                      end) merged.

(** [not isinstance(c, dict)] *)
Definition positional (c : value) : bool := negb (is_dict c).

(** [Element.__init__(self, *children, **attributes)] *)
Definition Element_init (args : list value) (kwargs : dict) : result Element :=
  match List.filter positional args with
  | [] => Raised (TypeError "missing tag")
  | VTag t :: rest =>
      Ok (mkElement t rest (Dict.of_items (normalized_items (merge_dicts kwargs args))))
  | v :: _ => Raised (TypeError ("expected Tag, but given " +:+ type_name v))
  end.

(** [Tag.__call__(self, *children, **attributes)] *)
Definition Tag_call (t : Tag) (args : list value) (kwargs : dict) : result Element :=
  Element_init (VTag t :: args) kwargs.

(** ** Caller-supplied generators *)

(** What resuming a generator for the [k]-th time does: yield a value,
    return, or raise. *)
Inductive gstep : Type :=
| GYield (v : value)
| GStop
| GRaise (e : exn).

(** A generator object: its code, the number of values it has yielded so
    far, and whether it can still be resumed. *)
Record generator : Type := mkGen { body : nat -> gstep; pos : nat; alive : bool }.

(** The heap maps the address carried by [VGen] to the generator object.
    An address with no object does not arise in Python; it reads as an
    exhausted generator. *)
Abbreviation heap := (gmap nat generator).

Inductive pulled : Type :=
| Item (v : value)
| Exhausted
| Broke (e : exn).

(** [next(g)] on a generator object: one resumption; a generator that has
    returned or raised stays exhausted. *)
Definition gen_next (g : nat) (h : heap) : pulled * heap :=
  match h !! g with
  | None => (Exhausted, h)
  | Some gen =>
      if alive gen then
        match body gen (pos gen) with
        | GYield v => (Item v, <[g := mkGen (body gen) (S (pos gen)) true]> h)
        | GStop => (Exhausted, <[g := mkGen (body gen) (pos gen) false]> h)
        | GRaise e => (Broke e, <[g := mkGen (body gen) (pos gen) false]> h)
        end
      else (Exhausted, h)
  end.

(** ** Iterators *)

(** The iterators [flat_children] loops over: a list iterator (the items
    still to come) or a generator, which is its own iterator. *)
Inductive iterator : Type :=
| ItList (items : list value)
| ItGen (g : nat).

Definition not_iterable (v : value) : exn :=
  TypeError ("'" +:+ type_name v +:+ "' object is not iterable").

(** [iter(seq)].  [flat_children] calls it on a child that is not a string,
    not a RawString and not None, or on [self.children]; iterating a [dict]
    gives its keys; [None], [bool], [int] and [Tag] have no [__iter__].
    Strings, RawStrings and elements are leaves of the flattening and are
    never handed to [iter] by it; the last case only makes the function
    total. *)
Definition py_iter (seq : value) : result iterator :=
  match seq with
  | VList l => Ok (ItList l)
  | VDict d => Ok (ItList (map VStr (Dict.keys d)))
  | VGen g => Ok (ItGen g)
  | VNone | VBool _ | VInt _ | VTag _ => Raised (not_iterable seq)
  | VStr _ | VRaw _ | VElem _ => Raised (not_iterable seq)
  end.

(** [next(it)] *)
Definition iter_next (it : iterator) (h : heap) : pulled * iterator * heap :=
  match it with
  | ItList [] => (Exhausted, it, h)
  | ItList (v :: rest) => (Item v, ItList rest, h)
  | ItGen g => let (p, h') := gen_next g h in (p, it, h')
  end.

(** ** [Element.flat_children] *)

(** What [flat_children] yields: a child that is a [str], or a [RawString],
    which is either raw text or an element. *)
Inductive leaf : Type :=
| Text (s : string)
| Raw (parts : list string)
| Nested (e : Element).

(** The generator [flat_children] calls itself for every nested sequence, so
    a running flattening is a stack of iterators, innermost first; a leaf
    yielded by the innermost call is passed up unchanged by every enclosing
    call. *)
Inductive flat_result : Type :=
| FYield (child : leaf) (stack : list iterator) (h : heap)
| FTau (stack : list iterator) (h : heap)
| FStop (h : heap)
| FRaise (e : exn) (h : heap).

(** [(seq or self.children)] followed by [iter]. *)
Definition descend (self : Element) (seq : value) : result iterator :=
  py_iter (if truthy seq then seq else VList (children self)).

(** The body of the loop, for one [child]; [stack] is the flattening once
    the child has been taken from its iterator. *)
Definition flat_child (self : Element) (child : value) (stack : list iterator)
  (h : heap) : flat_result :=
  match child with
  | VStr s => FYield (Text s) stack h
  | VRaw parts => FYield (Raw parts) stack h
  | VElem e => FYield (Nested e) stack h
  | VNone => FTau stack h
  | VBool _ | VInt _ | VDict _ | VList _ | VTag _ | VGen _ =>
      match descend self child with
      | Ok inner => FTau (inner :: stack) h
      | Raised e => FRaise e h
      end
  end.

(** One move of the flattening: advance the innermost loop by one child. *)
Definition flat_children (self : Element) (stack : list iterator) (h : heap)
  : flat_result :=
  match stack with
  | [] => FStop h
  | it :: outer =>
      match iter_next it h with
      | (Exhausted, _, h') => FTau outer h'
      | (Broke e, _, h') => FRaise e h'
      | (Item child, it', h') => flat_child self child (it' :: outer) h'
      end
  end.

(** ** [Element.__iter__] *)

(** Where a suspended [__iter__] resumes. *)
Inductive pc : Type :=
| AtStart
| InAttrs (rest : list (string * atom))
| InChildren (stack : list iterator)
| InCdata (child : string) (stack : list iterator)
| AfterCdata (stack : list iterator)
| InRaw (parts : list string) (stack : list iterator)
| AtEnd.

(** A suspended [__iter__] call. *)
Record frame : Type := mkFrame { self : Element; at_pc : pc }.

(** An element iterator is the stack of [__iter__] calls that are active,
    the innermost nested element first. *)
Definition config : Type := list frame.

Inductive step_result : Type :=
| Emit (fragment : string) (c : config) (h : heap)
| Tau (c : config) (h : heap)
| Stop (h : heap)
| Fail (e : exn) (h : heap).

(** [self.tag.options.get(key, default)] read as a condition. *)
Definition option_on (t : Tag) (key : string) (default : bool) : bool :=
  match Dict.get (options t) key with
  | Some v => atom_truthy v
  | None => default
  end.

(** [' %s="%s"' % (name, cgi.escape(str(value)))] *)
Definition attr_fragment (key : string) (v : atom) : string :=
  " " +:+ key +:+ "=" +:+ Str.dquote +:+ cgi_escape (py_str v) false +:+ Str.dquote.

Definition open_tag (t : Tag) : string := "<" +:+ name t.
Definition close_tag (t : Tag) : string := "</" +:+ name t +:+ ">".

(** One move of the innermost [__iter__] call. *)
Definition step (c : config) (h : heap) : step_result :=
  match c with
  | [] => Stop h
  | f :: callers =>
      let e := self f in
      let at_ p := mkFrame e p :: callers in
      match at_pc f with
      | AtStart => Emit (open_tag (tag e)) (at_ (InAttrs (attributes e))) h
      | InAttrs ((key, v) :: rest) => Emit (attr_fragment key v) (at_ (InAttrs rest)) h
      | InAttrs [] =>
          match children e with
          | _ :: _ => Emit ">" (at_ (InChildren [ItList (children e)])) h
          | [] =>
              if option_on (tag e) "shorten_empty_tag" true
              then Emit " />" (at_ AtEnd) h
              else Emit (">" +:+ close_tag (tag e)) (at_ AtEnd) h
          end
      | InChildren stack =>
          match flat_children e stack h with
          | FStop h' => Emit (close_tag (tag e)) (at_ AtEnd) h'
          | FRaise err h' => Fail err h'
          | FTau stack' h' => Tau (at_ (InChildren stack')) h'
          | FYield (Text s) stack' h' =>
              if option_on (tag e) "cdata_section" false
              then Emit "<![CDATA[" (at_ (InCdata s stack')) h'
              else Emit (cgi_escape s false) (at_ (InChildren stack')) h'
          | FYield (Nested e') stack' h' =>
              Tau (mkFrame e' AtStart :: at_ (InChildren stack')) h'
          | FYield (Raw parts) stack' h' => Tau (at_ (InRaw parts stack')) h'
          end
      | InCdata s stack => Emit s (at_ (AfterCdata stack)) h
      | AfterCdata stack => Emit "]]>" (at_ (InChildren stack)) h
      | InRaw (p :: parts) stack => Emit p (at_ (InRaw parts stack)) h
      | InRaw [] stack => Tau (at_ (InChildren stack)) h
      | AtEnd => Tau callers h
      end
  end.

(** [iter(element)] *)
Definition Element_iter (e : Element) : config := [mkFrame e AtStart].

(** How a bounded run of the iterator ended. *)
Inductive ending : Type :=
| Finished (h : heap)
| Failed (e : exn) (h : heap)
| Running (c : config) (h : heap).

(** [it.__next__()]: run to the next [yield]. *)
Fixpoint next (fuel : nat) (c : config) (h : heap) : option string * ending :=
  match fuel with
  | 0 => (None, Running c h)
  | S fuel' =>
      match step c h with
      | Emit s c' h' => (Some s, Running c' h')
      | Tau c' h' => next fuel' c' h'
      | Stop h' => (None, Finished h')
      | Fail e h' => (None, Failed e h')
      end
  end.

(** [list(it)]: the fragments produced by at most [fuel] moves, and where
    the iterator stands afterwards. *)
Fixpoint drain (fuel : nat) (c : config) (h : heap) : list string * ending :=
  match fuel with
  | 0 => ([], Running c h)
  | S fuel' =>
      match step c h with
      | Emit s c' h' => let (out, fin) := drain fuel' c' h' in (s :: out, fin)
      | Tau c' h' => drain fuel' c' h'
      | Stop h' => ([], Finished h')
      | Fail e h' => ([], Failed e h')
      end
  end.

(** [n] successive calls of [__next__], each with [fuel] moves at most. *)
Fixpoint take (n fuel : nat) (c : config) (h : heap) : list string * ending :=
  match n with
  | 0 => ([], Running c h)
  | S n' =>
      match next fuel c h with
      | (Some s, Running c' h') =>
          let (out, fin) := take n' fuel c' h' in (s :: out, fin)
      | (_, fin) => ([], fin)
      end
  end.

(** [Element.__str__]: ["".join(self)], when the iteration completes within
    [fuel] moves. *)
Definition Element_str (fuel : nat) (e : Element) (h : heap) : option (result string) :=
  match drain fuel (Element_iter e) h with
  | (out, Finished _) => Some (Ok (Str.join out))
  | (_, Failed err _) => Some (Raised err)
  | (_, Running _ _) => None
  end.

(** [RawString.__iter__] and [RawString.__str__] *)
Definition RawString_iter (raw_strings : list string) : list string := raw_strings.
Definition RawString_str (raw_strings : list string) : string := Str.join raw_strings.

(** ** Conformance with the docstrings *)

Definition from_ok {A} (d : A) (r : result A) : A :=
  match r with Ok a => a | Raised _ => d end.

Definition nobody : Element := mkElement (mkTag "" []) [] [].

Definition elem (t : Tag) (args : list value) (kwargs : dict) : value :=
  VElem (from_ok nobody (Tag_call t args kwargs)).

Definition show (fuel : nat) (v : value) : option (result string) :=
  match v with
  | VElem e => Element_str fuel e ∅
  | _ => None
  end.

(** ** The fragment sequence as a function of the tree *)

(** A plain-text leaf under a tag with or without [cdata_section]. *)
Definition text_frags (cdata : bool) (s : string) : list string :=
  if cdata then ["<![CDATA["; s; "]]>"] else [cgi_escape s false].

Definition attrs_frags (d : dict) : list string :=
  map (fun kv => attr_fragment (fst kv) (snd kv)) d.

(** What ends an element that has no children. *)
Definition empty_tail (t : Tag) : string :=
  if option_on t "shorten_empty_tag" true then " />" else ">" +:+ close_tag t.

(** Depth-first, left-to-right reading of a child: strings and RawStrings
    are leaves, [None] gives nothing, lists and dicts are read item by item,
    a nested element is read under its own tag.  This is the description of
    the output in words (emission order, flattening rules), to be compared
    with what the iterator does. *)
Fixpoint child_frags (cdata : bool) (v : value) : list string :=
  match v with
  | VStr s => text_frags cdata s
  | VRaw parts => parts
  | VElem (mkElement t cs attrs) =>
      open_tag t :: attrs_frags attrs ++
      match cs with
      | [] => [empty_tail t]
      | _ :: _ =>
          ">" :: flat_map (child_frags (option_on t "cdata_section" false)) cs
              ++ [close_tag t]
      end
  | VList l => flat_map (child_frags cdata) l
  | VDict d => flat_map (text_frags cdata) (Dict.keys d)
  | VNone | VBool _ | VInt _ | VTag _ | VGen _ => []
  end.

Definition Element_frags (e : Element) : list string := child_frags false (VElem e).

(** A child tree made of strings, RawStrings, nested elements, [None] and
    non-empty lists and dicts only. *)
Fixpoint static (v : value) : bool :=
  match v with
  | VNone | VStr _ | VRaw _ => true
  | VElem (mkElement _ cs _) => forallb static cs
  | VList l => match l with [] => false | _ :: _ => forallb static l end
  | VDict d => match d with [] => false | _ :: _ => true end
  | VBool _ | VInt _ | VTag _ | VGen _ => false
  end.

(** No generator anywhere in a value, an iterator, a frame. *)
Fixpoint gen_free (v : value) : bool :=
  match v with
  | VGen _ => false
  | VList l => forallb gen_free l
  | VElem (mkElement _ cs _) => forallb gen_free cs
  | VNone | VBool _ | VInt _ | VStr _ | VDict _ | VTag _ | VRaw _ => true
  end.

Definition iterator_gen_free (it : iterator) : bool :=
  match it with
  | ItList l => forallb gen_free l
  | ItGen _ => false
  end.

Definition pc_gen_free (p : pc) : bool :=
  match p with
  | InChildren st | InCdata _ st | AfterCdata st | InRaw _ st =>
      forallb iterator_gen_free st
  | AtStart | InAttrs _ | AtEnd => true
  end.

Definition frame_gen_free (f : frame) : bool :=
  forallb gen_free (children (self f)) && pc_gen_free (at_pc f).

Definition config_gen_free (c : config) : bool := forallb frame_gen_free c.

(** ** Judgements on runs *)

(** From [c] and [h] the iterator emits exactly [out] and then stands at
    [c'] with heap [h']. *)
Definition runs (c : config) (h : heap) (out : list string) (c' : config) (h' : heap)
  : Prop :=
  exists n, drain n c h = (out, Running c' h').

(** [list(it)] returns [out] and leaves the heap [h']. *)
Definition serializes (c : config) (h : heap) (out : list string) (h' : heap) : Prop :=
  exists n, drain n c h = (out, Finished h').

(** [list(it)] emits [out] and then raises [err]. *)
Definition breaks (c : config) (h : heap) (out : list string) (err : exn) (h' : heap)
  : Prop :=
  exists n, drain n c h = (out, Failed err h').

Definition heap_of (fin : ending) : heap :=
  match fin with Finished h | Failed _ h | Running _ h => h end.

(** The same ending over another heap. *)
Definition rebase (h : heap) (fin : ending) : ending :=
  match fin with
  | Finished _ => Finished h
  | Failed e _ => Failed e h
  | Running c _ => Running c h
  end.

(** The generator at [g] after [k] more values have been pulled from it. *)
Definition advance (g k : nat) (gen : generator) (h : heap) : heap :=
  <[g := mkGen (body gen) (pos gen + k) true]> h.

(** An exception some generator of the heap raises at some point of its code. *)
Definition raised_by_generator (h : heap) (err : exn) : Prop :=
  exists g gen k, h !! g = Some gen /\ body gen k = GRaise err.

(** The [TypeError] of [iter] on an object that has no [__iter__]. *)
Definition raised_by_iter (err : exn) : Prop :=
  exists v, err = not_iterable v
            /\ match v with VBool _ | VInt _ | VTag _ => True | _ => False end.

(** Child [v], met as the next item of a list under any element, makes the
    iterator emit its reading and move on to the item after it. *)
Definition flattens (v : value) : Prop :=
  forall (e : Element) rest stack callers h,
    runs (mkFrame e (InChildren (ItList (v :: rest) :: stack)) :: callers) h
         (child_frags (option_on (tag e) "cdata_section" false) v)
         (mkFrame e (InChildren (ItList rest :: stack)) :: callers) h.

(** The same move over another heap. *)
Definition rebase_step (h : heap) (r : step_result) : step_result :=
  match r with
  | Emit s c _ => Emit s c h
  | Tau c _ => Tau c h
  | Stop _ => Stop h
  | Fail e _ => Fail e h
  end.

(** Where a move leads, when it leads somewhere. *)
Definition target (r : step_result) : config :=
  match r with
  | Emit _ c _ | Tau c _ => c
  | Stop _ | Fail _ _ => []
  end.

Definition heap_after (r : step_result) : heap :=
  match r with Emit _ _ h | Tau _ h | Stop h | Fail _ h => h end.

(** Two heaps hold the same generators as far as their code goes. *)
Definition same_code (h h' : heap) : Prop :=
  forall g, body <$> (h' !! g) = body <$> (h !! g).

(** The fragments of the first [k] strings [f 0], [f 1], ... met as text. *)
Definition leaves (cdata : bool) (f : nat -> string) (k : nat) : list string :=
  flat_map (text_frags cdata) (map f (seq 0 k)).

(** The value that the last pair of [items] with key [k] gives to [k]. *)
Fixpoint last_of (items : list (string * atom)) (k : string) : option atom :=
  match items with
  | [] => None
  | (k', v) :: rest =>
      match last_of rest k with
      | Some w => Some w
      | None => if String.eqb k' k then Some v else None
      end
  end.

(** The keys [ks] once [k] has been assigned: at the end when it is new. *)
Definition add_key (ks : list string) (k : string) : list string :=
  if existsb (String.eqb k) ks then ks else ks ++ [k].

(** [child is not None] *)
Definition not_none (v : value) : bool :=
  match v with VNone => false | _ => true end.

(** The children that are true and have no [__iter__]: [True], a non-zero
    [int], a [Tag]. *)
Definition uniterable (v : value) : bool :=
  match v with
  | VBool true | VTag _ => true
  | VInt n => negb (Z.eqb n 0)
  | _ => false
  end.

(** The items of a positional argument that is a mapping. *)
Definition mapping_items (c : value) : list (string * atom) :=
  match c with VDict d => d | _ => [] end.

(** Child [v], taken from any iterator [it] by [next], makes the element
    iterator emit its reading and go on with [it] as [next] left it. *)
Definition flattens_from (v : value) : Prop :=
  forall (e : Element) it it' stack callers (h h' : heap),
    iter_next it h = (Item v, it', h') ->
    runs (mkFrame e (InChildren (it :: stack)) :: callers) h
         (child_frags (option_on (tag e) "cdata_section" false) v)
         (mkFrame e (InChildren (it' :: stack)) :: callers) h'.

(** The fragments of the first [k] values [f 0], [f 1], ... met as children. *)
Definition yielded_frags (cdata : bool) (f : nat -> value) (k : nat) : list string :=
  flat_map (child_frags cdata) (map f (seq 0 k)).

(** No child, at any depth of [v], is false without being [None] or a
    string: no [False], no [0], no empty dict, no empty list.  These are the
    children for which [seq or self.children] does not take [seq]. *)
Fixpoint no_false_child (v : value) : bool :=
  match v with
  | VBool b => b
  | VInt n => negb (Z.eqb n 0)
  | VDict d => match d with [] => false | _ :: _ => true end
  | VList l => match l with [] => false | _ :: _ => forallb no_false_child l end
  | VElem (mkElement _ cs _) => forallb no_false_child cs
  | VNone | VStr _ | VTag _ | VRaw _ | VGen _ => true
  end.

(** The same of every value that a generator of the heap can yield. *)
Definition heap_no_false_child (h : heap) : Prop :=
  forall g gen k v,
    h !! g = Some gen -> body gen k = GYield v -> no_false_child v = true.

(** No generator of the heap yields a generator, or a value that holds
    one: the flattening of what a generator yields has the depth of the
    value. *)
Definition yields_no_generator (h : heap) : Prop :=
  forall g gen k v,
    h !! g = Some gen -> body gen k = GYield v -> gen_free v = true.

Definition iterator_no_false_child (it : iterator) : bool :=
  match it with
  | ItList l => forallb no_false_child l
  | ItGen _ => true
  end.

Definition pc_no_false_child (p : pc) : bool :=
  match p with
  | InChildren st | InCdata _ st | AfterCdata st | InRaw _ st =>
      forallb iterator_no_false_child st
  | AtStart | InAttrs _ | AtEnd => true
  end.

Definition frame_no_false_child (f : frame) : bool :=
  forallb no_false_child (children (self f)) && pc_no_false_child (at_pc f).

Definition config_no_false_child (c : config) : bool :=
  forallb frame_no_false_child c.

(** The next move hands [flat_children] a child that is false and is
    neither a string nor [None]: [seq or self.children] then takes
    [self.children] in its place. *)
Definition falls_back (c : config) (h : heap) : bool :=
  match c with
  | mkFrame _ (InChildren (it :: _)) :: _ =>
      match iter_next it h with
      | (Item v, _, _) =>
          match v with
          | VStr _ | VRaw _ | VElem _ | VNone => false
          | VBool _ | VInt _ | VDict _ | VList _ | VTag _ | VGen _ => negb (truthy v)
          end
      | (Exhausted, _, _) | (Broke _, _, _) => false
      end
  | _ => false
  end.

(** Heap [h] comes before [h']: they hold the same generator objects, none
    of them further advanced in [h] than in [h']. *)
Definition behind (h h' : heap) : Prop :=
  forall g,
    match h !! g, h' !! g with
    | Some gen, Some gen' => pos gen <= pos gen'
    | None, None => True
    | _, _ => False
    end.





(** * Properties *)

(** ** Strings and dictionaries *)

Lemma append_cons (x : ascii) (a b : string) : String x a +:+ b = String x (a +:+ b).
Proof. reflexivity. Qed.

Lemma append_assoc (a b c : string) : (a +:+ b) +:+ c = a +:+ (b +:+ c).
Proof.
  induction a as [|x a IH]; [reflexivity|].
  now rewrite !append_cons, IH.
Qed.

Lemma append_nil_r (a : string) : a +:+ "" = a.
Proof.
  induction a as [|x a IH]; [reflexivity|].
  now rewrite append_cons, IH.
Qed.

Lemma mem_append c a b : Str.mem c (a +:+ b) = Str.mem c a || Str.mem c b.
Proof.
  induction a as [|x a IH]; simpl; [reflexivity|].
  rewrite IH. now rewrite orb_assoc.
Qed.

Lemma replace_removes old new s :
  Str.mem old new = false -> Str.mem old (Str.replace old new s) = false.
Proof.
  intros Hnew. induction s as [|x s IH]; simpl; [reflexivity|].
  destruct (Ascii.eqb x old) eqn:E.
  - rewrite mem_append, Hnew, IH. reflexivity.
  - simpl. rewrite E, IH. reflexivity.
Qed.

Lemma replace_absent old new s :
  Str.mem old s = false -> Str.replace old new s = s.
Proof.
  induction s as [|x s IH]; simpl; [reflexivity|].
  destruct (Ascii.eqb x old); simpl; [discriminate|].
  intros H. now rewrite IH.
Qed.

(** A normalised attribute name holds no underscore. *)
Lemma normalize_no_underscore key : Str.mem "_" (normalize key) = false.
Proof. unfold normalize. now apply replace_removes. Qed.

(** A name without underscores is its own normal form. *)
Lemma normalize_plain key : Str.mem "_" key = false -> normalize key = key.
Proof.
  intros H. unfold normalize, Str.strip.
  assert (Hl : Str.lstrip "_" key = key).
  { destruct key as [|a r]; simpl in *; [reflexivity|].
    destruct (Ascii.eqb a "_"); [discriminate|reflexivity]. }
  assert (Hr : Str.rstrip "_" key = key).
  { clear Hl. induction key as [|a r IH]; simpl in *; [reflexivity|].
    destruct (Ascii.eqb a "_") eqn:E; simpl in H; [discriminate|].
    rewrite (IH H). destruct r; reflexivity. }
  rewrite Hl, Hr. now apply replace_absent.
Qed.

Lemma in_set_inv d k v k0 v0 :
  In (k0, v0) (Dict.set d k v) -> In (k0, v0) d \/ v0 = v.
Proof.
  induction d as [|[k' v'] r IH]; simpl.
  - intros [[= <- <-]|[]]. now right.
  - destruct (String.eqb k' k); simpl.
    + intros [[= <- <-]|H]; [now right | left; now right].
    + intros [H|H]; [left; now left|].
      destruct (IH H) as [H'|H']; [left; now right | now right].
Qed.

Lemma in_update_inv c : forall d k0 v0,
  In (k0, v0) (Dict.update d c) -> In (k0, v0) d \/ exists k, In (k, v0) c.
Proof.
  unfold Dict.update.
  induction c as [|[k v] c IH]; simpl; intros d k0 v0 H; [now left|].
  destruct (IH _ _ _ H) as [H'|[k1 H']].
  - destruct (in_set_inv _ _ _ _ _ H') as [H''| ->]; [now left|].
    right. exists k. now left.
  - right. exists k1. now right.
Qed.

Lemma normalized_items_not_none merged k v :
  In (k, v) (normalized_items merged) -> v <> ANone.
Proof.
  unfold normalized_items. rewrite in_flat_map.
  intros [[k' v'] [_ H]]. simpl in H.
  destruct v'; simpl in H; try contradiction;
    destruct H as [[= <- <-]|[]]; discriminate.
Qed.




(** ** [Element.__init__] *)




Lemma Element_init_unfold args kwargs :
  Element_init args kwargs =
  match List.filter positional args with
  | [] => Raised (TypeError "missing tag")
  | VTag t :: rest =>
      Ok (mkElement t rest (Dict.of_items (normalized_items (merge_dicts kwargs args))))
  | v :: _ => Raised (TypeError ("expected Tag, but given " +:+ type_name v))
  end.
Proof. reflexivity. Qed.




(** ** Induction on values *)

Lemma value_ind (P : value -> Prop)
  (HNone : P VNone) (HBool : forall b, P (VBool b)) (HInt : forall n, P (VInt n))
  (HStr : forall s, P (VStr s)) (HDict : forall d, P (VDict d))
  (HList : forall l, Forall P l -> P (VList l))
  (HTag : forall t, P (VTag t)) (HRaw : forall parts, P (VRaw parts))
  (HElem : forall e, Forall P (children e) -> P (VElem e))
  (HGen : forall g, P (VGen g)) :
  forall v, P v.
Proof.
  fix IH 1. intros [ | b | n | s | d | l | t | parts | e | g].
  - exact HNone.
  - apply HBool.
  - apply HInt.
  - apply HStr.
  - apply HDict.
  - apply HList. induction l as [|x l IHl]; constructor; [apply IH | exact IHl].
  - apply HTag.
  - apply HRaw.
  - apply HElem. destruct e as [t cs a]. simpl.
    induction cs as [|x cs IHcs]; constructor; [apply IH | exact IHcs].
  - apply HGen.
Qed.

(** ** Composition of runs *)

Lemma drain_plus n m : forall c h,
  drain (n + m) c h =
  match drain n c h with
  | (out, Running c' h') => let (out', fin) := drain m c' h' in (out ++ out', fin)
  | r => r
  end.
Proof.
  induction n as [|n IH]; intros c h; simpl.
  - now destruct (drain m c h).
  - destruct (step c h) as [s c' h'| c' h' | h' | e h']; try reflexivity.
    + rewrite IH. destruct (drain n c' h') as [out [| |c2 h2]]; try reflexivity.
      now destruct (drain m c2 h2).
    + apply IH.
Qed.

Lemma drain_settled n m c h out fin :
  drain n c h = (out, fin) ->
  (forall c' h', fin <> Running c' h') ->
  drain (n + m) c h = (out, fin).
Proof.
  intros H Hfin. rewrite drain_plus, H.
  destruct fin; try reflexivity. now destruct (Hfin c0 h0).
Qed.

Lemma runs_refl c h : runs c h [] c h.
Proof. now exists 0. Qed.

Lemma runs_emit c h s c' h' : step c h = Emit s c' h' -> runs c h [s] c' h'.
Proof. intros H. exists 1. simpl. now rewrite H. Qed.

Lemma runs_tau c h c' h' : step c h = Tau c' h' -> runs c h [] c' h'.
Proof. intros H. exists 1. simpl. now rewrite H. Qed.

Lemma runs_trans c h o1 c1 h1 o2 c2 h2 :
  runs c h o1 c1 h1 -> runs c1 h1 o2 c2 h2 -> runs c h (o1 ++ o2) c2 h2.
Proof.
  intros [n Hn] [m Hm]. exists (n + m). now rewrite drain_plus, Hn, Hm.
Qed.

Lemma tau_runs c h c1 h1 out c2 h2 :
  step c h = Tau c1 h1 -> runs c1 h1 out c2 h2 -> runs c h out c2 h2.
Proof. intros H R. apply (runs_trans _ _ [] _ _ _ _ _ (runs_tau _ _ _ _ H) R). Qed.

Lemma runs_then_tau c h out c1 h1 c2 h2 :
  runs c h out c1 h1 -> step c1 h1 = Tau c2 h2 -> runs c h out c2 h2.
Proof.
  intros R H. rewrite <- (app_nil_r out).
  apply (runs_trans _ _ _ _ _ _ _ _ R (runs_tau _ _ _ _ H)).
Qed.

Lemma runs_finish c h out h' : runs c h out [] h' -> serializes c h out h'.
Proof.
  intros [n Hn]. exists (n + 1). rewrite drain_plus, Hn. simpl.
  now rewrite app_nil_r.
Qed.

Lemma runs_break c h out c' h' err h2 :
  runs c h out c' h' -> step c' h' = Fail err h2 -> breaks c h out err h2.
Proof.
  intros [n Hn] Hs. exists (n + 1). rewrite drain_plus, Hn. simpl.
  rewrite Hs. now rewrite app_nil_r.
Qed.

(** A complete run has one result, whatever the bound. *)
Lemma serializes_unique c h out1 h1 out2 h2 :
  serializes c h out1 h1 -> serializes c h out2 h2 -> out1 = out2 /\ h1 = h2.
Proof.
  intros [n Hn] [m Hm].
  pose proof (drain_settled n m c h _ _ Hn ltac:(discriminate)) as H1.
  pose proof (drain_settled m n c h _ _ Hm ltac:(discriminate)) as H2.
  rewrite Nat.add_comm in H2. rewrite H1 in H2. now inversion H2.
Qed.

Lemma serializes_not_breaks c h out1 h1 out2 err h2 :
  serializes c h out1 h1 -> breaks c h out2 err h2 -> False.
Proof.
  intros [n Hn] [m Hm].
  pose proof (drain_settled n m c h _ _ Hn ltac:(discriminate)) as H1.
  pose proof (drain_settled m n c h _ _ Hm ltac:(discriminate)) as H2.
  rewrite Nat.add_comm in H2. rewrite H1 in H2. discriminate.
Qed.

(** ** The opening of an element *)

Section opening.
Variables (e : Element) (callers : config) (h : heap).

Lemma runs_attrs rest :
  runs (mkFrame e (InAttrs rest) :: callers) h (attrs_frags rest)
       (mkFrame e (InAttrs []) :: callers) h.
Proof using Type.
  induction rest as [|[key v] rest IH]; [apply runs_refl|].
  change (attrs_frags ((key, v) :: rest))
    with ([attr_fragment key v] ++ attrs_frags rest).
  eapply runs_trans; [|exact IH]. now apply runs_emit.
Qed.

(** The tag and the attributes, in the order of the dictionary; the heap
    is not touched. *)
Lemma runs_open :
  runs (mkFrame e AtStart :: callers) h
       (open_tag (tag e) :: attrs_frags (attributes e))
       (mkFrame e (InAttrs []) :: callers) h.
Proof using Type.
  change (open_tag (tag e) :: attrs_frags (attributes e))
    with ([open_tag (tag e)] ++ attrs_frags (attributes e)).
  eapply runs_trans; [|apply runs_attrs]. now apply runs_emit.
Qed.

Lemma runs_empty :
  children e = [] ->
  runs (mkFrame e AtStart :: callers) h
       (open_tag (tag e) :: attrs_frags (attributes e) ++ [empty_tail (tag e)])
       callers h.
Proof using Type.
  intros Hc.
  change (open_tag (tag e) :: attrs_frags (attributes e) ++ [empty_tail (tag e)])
    with ((open_tag (tag e) :: attrs_frags (attributes e)) ++ [empty_tail (tag e)] ++ []).
  eapply runs_trans; [apply runs_open|].
  apply runs_trans with (c1 := mkFrame e AtEnd :: callers) (h1 := h);
    [|now apply runs_tau].
  apply runs_emit. simpl. rewrite Hc. unfold empty_tail.
  now destruct (option_on (tag e) "shorten_empty_tag" true).
Qed.

Lemma runs_gt :
  children e <> [] ->
  runs (mkFrame e AtStart :: callers) h
       (open_tag (tag e) :: attrs_frags (attributes e) ++ [">"])
       (mkFrame e (InChildren [ItList (children e)]) :: callers) h.
Proof using Type.
  intros Hc.
  change (open_tag (tag e) :: attrs_frags (attributes e) ++ [">"])
    with ((open_tag (tag e) :: attrs_frags (attributes e)) ++ [">"]).
  eapply runs_trans; [apply runs_open|].
  apply runs_emit. simpl. now destruct (children e).
Qed.

Lemma runs_close :
  runs (mkFrame e (InChildren []) :: callers) h [close_tag (tag e)] callers h.
Proof using Type.
  change [close_tag (tag e)] with ([close_tag (tag e)] ++ []).
  eapply runs_trans; [apply runs_emit|apply runs_tau]; reflexivity.
Qed.

Lemma runs_raw parts stack :
  runs (mkFrame e (InRaw parts stack) :: callers) h parts
       (mkFrame e (InChildren stack) :: callers) h.
Proof using Type.
  induction parts as [|p parts IH]; [now apply runs_tau|].
  change (p :: parts) with ([p] ++ parts) at 2.
  eapply runs_trans; [|exact IH]. now apply runs_emit.
Qed.

Lemma runs_text s rest stack :
  runs (mkFrame e (InChildren (ItList (VStr s :: rest) :: stack)) :: callers) h
       (text_frags (option_on (tag e) "cdata_section" false) s)
       (mkFrame e (InChildren (ItList rest :: stack)) :: callers) h.
Proof using Type.
  unfold text_frags.
  destruct (option_on (tag e) "cdata_section" false) eqn:E.
  - change ["<![CDATA["; s; "]]>"] with (["<![CDATA["] ++ [s] ++ ["]]>"]).
    eapply runs_trans; [apply runs_emit; simpl; rewrite E; reflexivity|].
    eapply runs_trans; apply runs_emit; reflexivity.
  - apply runs_emit. simpl. now rewrite E.
Qed.

Lemma runs_exhausted stack :
  runs (mkFrame e (InChildren (ItList [] :: stack)) :: callers) h []
       (mkFrame e (InChildren stack) :: callers) h.
Proof using Type. now apply runs_tau. Qed.

End opening.

(** ** The iterator follows the reading of the tree *)

Lemma child_frags_elem cdata e : child_frags cdata (VElem e) = Element_frags e.
Proof. now destruct e. Qed.

Lemma static_elem e : static (VElem e) = forallb static (children e).
Proof. now destruct e. Qed.

Lemma flattens_list l :
  Forall (fun v => static v = true -> flattens v) l ->
  forallb static l = true ->
  forall (e : Element) rest stack callers h,
    runs (mkFrame e (InChildren (ItList (l ++ rest) :: stack)) :: callers) h
         (flat_map (child_frags (option_on (tag e) "cdata_section" false)) l)
         (mkFrame e (InChildren (ItList rest :: stack)) :: callers) h.
Proof.
  induction 1 as [|v l Hv _ IH]; simpl; intros Hs e rest stack callers h.
  - apply runs_refl.
  - apply andb_prop in Hs as [Hsv Hsl].
    eapply runs_trans; [apply (Hv Hsv) | now apply IH].
Qed.

Lemma flattens_keys ks :
  forall (e : Element) rest stack callers h,
    runs (mkFrame e (InChildren (ItList (map VStr ks ++ rest) :: stack)) :: callers) h
         (flat_map (text_frags (option_on (tag e) "cdata_section" false)) ks)
         (mkFrame e (InChildren (ItList rest :: stack)) :: callers) h.
Proof.
  induction ks as [|k ks IH]; simpl; intros e rest stack callers h.
  - apply runs_refl.
  - eapply runs_trans; [apply runs_text | apply IH].
Qed.

Lemma element_runs (e : Element) :
  Forall (fun v => static v = true -> flattens v) (children e) ->
  forallb static (children e) = true ->
  forall callers h, runs (mkFrame e AtStart :: callers) h (Element_frags e) callers h.
Proof.
  intros HP Hs callers h.
  destruct (children e) as [|c cs] eqn:Hc.
  - destruct e as [t cs attrs]. simpl in Hc. subst cs.
    now apply (runs_empty (mkElement t [] attrs)).
  - assert (Hne : children e <> []) by (rewrite Hc; discriminate).
    pose proof (runs_gt e callers h Hne) as R1.
    pose proof (flattens_list (c :: cs) HP Hs e [] [] callers h) as R2.
    rewrite app_nil_r, <- Hc in R2.
    pose proof (runs_exhausted e callers h []) as R3.
    pose proof (runs_close e callers h) as R4.
    pose proof (runs_trans _ _ _ _ _ _ _ _ R1
                  (runs_trans _ _ _ _ _ _ _ _ R2
                     (runs_trans _ _ _ _ _ _ _ _ R3 R4))) as R.
    destruct e as [t cs' attrs]. simpl in *. subst cs'.
    unfold Element_frags. simpl.
    rewrite <- app_assoc in R. simpl in R. exact R.
Qed.

Lemma static_flattens : forall v, static v = true -> flattens v.
Proof.
  induction v as [ | b | n | s | d | l IHl | t | parts | e' IHe | g]
    using value_ind; intros Hs; try discriminate;
    intros e rest stack callers h.
  - now apply runs_tau.
  - apply runs_text.
  - destruct d as [|kv d]; [discriminate|].
    pose proof (flattens_keys (Dict.keys (kv :: d)) e [] (ItList rest :: stack) callers h) as R.
    rewrite !app_nil_r in R.
    eapply tau_runs; [reflexivity|].
    eapply runs_then_tau; [exact R | reflexivity].
  - destruct l as [|x l]; [discriminate|].
    pose proof (flattens_list (x :: l) IHl Hs e [] (ItList rest :: stack) callers h) as R.
    rewrite !app_nil_r in R.
    eapply tau_runs; [reflexivity|].
    eapply runs_then_tau; [exact R | reflexivity].
  - eapply tau_runs; [reflexivity|]. apply runs_raw.
  - rewrite static_elem in Hs. rewrite child_frags_elem.
    eapply tau_runs; [reflexivity|]. now apply element_runs.
Qed.

(** The iterator of an element whose children are static emits the reading
    of the tree and stops, leaving the heap as it was. *)
Lemma static_serializes (e : Element) (h : heap) :
  forallb static (children e) = true ->
  serializes (Element_iter e) h (Element_frags e) h.
Proof.
  intros Hs. apply runs_finish. apply element_runs; [|exact Hs].
  apply Forall_forall. intros v _. apply static_flattens.
Qed.

(** ** Attributes given as positional mappings *)




Lemma attributes_of_init args kwargs e :
  Element_init args kwargs = Ok e ->
  attributes e = Dict.of_items (normalized_items (merge_dicts kwargs args))
  /\ exists t, List.filter positional args = VTag t :: children e /\ tag e = t.
Proof.
  rewrite Element_init_unfold.
  destruct (List.filter positional args) as [|v rest]; [discriminate|].
  destruct v; try discriminate. intros [= <-]. simpl. eauto.
Qed.

(** ** What normalising a name does *)















(** ** [None] *)

(** C9: [tag(None, "x", class_=None)] and [tag("x")] serialise to the same
    fragments, for every tag and heap; no attribute of a constructed element
    has the value [None]; a [None] child is passed over without output. *)
Theorem none_is_ignored :
  (forall t h, exists e1 e2 out,
      Tag_call t [VNone; VStr "x"] [("class_", ANone)] = Ok e1
      /\ Tag_call t [VStr "x"] [] = Ok e2
      /\ attributes e1 = [] /\ attributes e2 = []
      /\ serializes (Element_iter e1) h out h
      /\ serializes (Element_iter e2) h out h)
  /\ (forall args kwargs e,
        Element_init args kwargs = Ok e ->
        forall k v, In (k, v) (attributes e) -> v <> ANone)
  /\ (forall (e : Element) rest stack callers h,
        runs (mkFrame e (InChildren (ItList (VNone :: rest) :: stack)) :: callers) h
             []
             (mkFrame e (InChildren (ItList rest :: stack)) :: callers) h).
Proof.
  split; [|split].
  - intros t h.
    exists (mkElement t [VNone; VStr "x"] []), (mkElement t [VStr "x"] []).
    exists (Element_frags (mkElement t [VStr "x"] [])).
    repeat split.
    + now apply (static_serializes (mkElement t [VNone; VStr "x"] [])).
    + now apply static_serializes.
  - intros args kwargs e He k v Hin.
    destruct (attributes_of_init _ _ _ He) as (Ha & _).
    rewrite Ha in Hin. unfold Dict.of_items in Hin.
    destruct (in_update_inv _ _ _ _ Hin) as [[]|[k' Hk]].
    now apply normalized_items_not_none in Hk.
  - intros e rest stack callers h. now apply runs_tau.
Qed.

(** At [p({"class": None}, id=None, title="t")]. *)
Lemma none_is_ignored_witness :
  attributes (from_ok nobody
     (Element_init [VTag (mkTag "p" []); VDict [("class", ANone)]]
                   [("id", ANone); ("title", AStr "t")]))
  = [("title", AStr "t")]
  /\ AStr "t" <> ANone.
Proof.
  destruct none_is_ignored as (_ & H & _).
  split; [reflexivity|].
  apply (H [VTag (mkTag "p" []); VDict [("class", ANone)]]
           [("id", ANone); ("title", AStr "t")] _ eq_refl "title").
  simpl. auto.
Defined.

(** ** Attribute fragments *)

Lemma mem_replace_other c old new s :
  Str.mem c new = false -> Str.mem c s = false ->
  Str.mem c (Str.replace old new s) = false.
Proof.
  intros Hnew. induction s as [|x s IH]; simpl; [reflexivity|].
  intros H. apply orb_false_elim in H as [Hx Hs].
  destruct (Ascii.eqb x old).
  - rewrite mem_append, Hnew. now apply IH.
  - simpl. rewrite Hx. now apply IH.
Qed.

(** What [cgi.escape] without [quote] does achieve: no angle bracket is
    left in the result. *)
Lemma cgi_escape_no_angle s :
  Str.mem "<" (cgi_escape s false) = false /\ Str.mem ">" (cgi_escape s false) = false.
Proof.
  unfold cgi_escape. split.
  - apply mem_replace_other; [reflexivity|]. now apply replace_removes.
  - now apply replace_removes.
Qed.

(** C1: [Element(Tag("div"), class_="css class", attr_name=123)] is
    serialised with [class] before [attr-name], the order of the
    dictionary, where the docstring of [Element.__init__] shows
    [attr-name] first. *)
Theorem attributes_in_dictionary_order :
  let e := from_ok nobody
             (Element_init [VTag (mkTag "div" [])]
                           [("class_", AStr "css class"); ("attr_name", AInt 123)]) in
  let q := Str.dquote in
  drain 6 (Element_iter e) ∅
    = (["<div"; " class=" +:+ q +:+ "css class" +:+ q;
        " attr-name=" +:+ q +:+ "123" +:+ q; " />"], Finished ∅)
  /\ Element_str 6 e ∅
     = Some (Ok ("<div class=" +:+ q +:+ "css class" +:+ q
                 +:+ " attr-name=" +:+ q +:+ "123" +:+ q +:+ " />"))
  /\ Element_str 6 e ∅
     <> Some (Ok ("<div attr-name=" +:+ q +:+ "123" +:+ q
                  +:+ " class=" +:+ q +:+ "css class" +:+ q +:+ " />")).
Proof.
  intros e q. split; [|split].
  - vm_compute. reflexivity.
  - vm_compute. reflexivity.
  - vm_compute. discriminate.
Qed.

(** C2: in [Tag("a")(title=q)], where [q] is the string made of one double
    quotation mark, the mark of the value is written out as it is, between
    the quotation marks that delimit the value;
    [cgi.escape] replaces it only when called with [quote]. *)
Theorem attribute_quote_not_escaped :
  let q := Str.dquote in
  attr_fragment "title" (AStr q) = " title=" +:+ q +:+ q +:+ q
  /\ attr_fragment "title" (AStr q) <> " title=" +:+ q +:+ "&quot;" +:+ q
  /\ Element_str 5 (from_ok nobody (Tag_call (mkTag "a" []) [] [("title", AStr q)])) ∅
     = Some (Ok ("<a title=" +:+ q +:+ q +:+ q +:+ " />"))
  /\ cgi_escape q true = "&quot;".
Proof.
  intros q. split; [|split; [|split]].
  - reflexivity.
  - vm_compute. discriminate.
  - vm_compute. reflexivity.
  - reflexivity.
Qed.

(** ** The end of an element *)






(** ** An empty list among the children *)

(** [seq or self.children] with an empty [seq]: the flattening starts over
    on [self.children], one call deeper, and meets the same empty list. *)
Lemma empty_list_spins (e : Element) (rest : list value) (callers : config) (h : heap) :
  children e = VList [] :: rest ->
  forall n outer, exists outer',
    drain n (mkFrame e (InChildren (ItList (children e) :: outer)) :: callers) h
    = ([], Running (mkFrame e (InChildren (ItList (children e) :: outer')) :: callers) h).
Proof.
  intros Hc. induction n as [|n IH]; intros outer.
  - now exists outer.
  - destruct (IH (ItList rest :: outer)) as [outer' H].
    exists outer'. simpl. rewrite Hc. simpl. rewrite Hc.
    rewrite Hc in H. exact H.
Qed.

(** C4: with an empty list as first child ([Tag("p")([])] for one) the
    iterator emits the tag, the attributes and [">"] and then never emits or
    stops, while the depth-first reading of such a tree passes over the
    empty list and closes the element. *)
Theorem empty_list_child_never_ends (t : Tag) (attrs : dict) (rest : list value) (h : heap) :
  let e := mkElement t (VList [] :: rest) attrs in
  (exists c0,
      runs (Element_iter e) h (open_tag t :: attrs_frags attrs ++ [">"]) c0 h
      /\ forall n, exists c, drain n c0 h = ([], Running c h))
  /\ (forall out h', ~ serializes (Element_iter e) h out h')
  /\ Element_frags (mkElement t [VList []] attrs)
     = open_tag t :: attrs_frags attrs ++ [">"; close_tag t].
Proof.
  intros e.
  assert (Hc : children e = VList [] :: rest) by reflexivity.
  assert (Hne : children e <> []) by discriminate.
  pose proof (runs_gt e [] h Hne) as R.
  assert (Hspin : forall n, exists c,
             drain n [mkFrame e (InChildren [ItList (children e)])] h = ([], Running c h)).
  { intros n. destruct (empty_list_spins e rest [] h Hc n []) as [outer' H]. eauto. }
  split; [|split].
  - eexists. split; [exact R | exact Hspin].
  - intros out h' [n Hn]. destruct R as [m Hm]. destruct (Hspin n) as [c Hs].
    pose proof (drain_settled n m _ _ _ _ Hn ltac:(discriminate)) as H1.
    pose proof (drain_plus m n (Element_iter e) h) as H2.
    unfold Element_iter in *.
    rewrite Hm, Hs, Nat.add_comm, H1 in H2. discriminate.
  - reflexivity.
Qed.

(** ** Trees without generators *)

Lemma gen_free_elem e : gen_free (VElem e) = forallb gen_free (children e).
Proof. now destruct e. Qed.

Lemma gen_free_keys ks : forallb gen_free (map VStr ks) = true.
Proof. induction ks as [|k ks IH]; [reflexivity | exact IH]. Qed.

Ltac use_true :=
  repeat match goal with
         | H : ?x = true |- context [?x] =>
             lazymatch x with true => fail | _ => rewrite H end
         end.

Ltac gen_free_done :=
  cbn in *; unfold frame_gen_free; cbn;
  try match goal with H : children _ = _ |- _ => rewrite !H end;
  rewrite ?gen_free_keys; use_true; cbn; use_true;
  first [reflexivity | split; reflexivity].

(** A move of an iterator that holds no generator neither reads nor writes
    the heap, and leads to an iterator that holds no generator. *)
Lemma step_gen_free (c : config) (h : heap) :
  config_gen_free c = true ->
  step c h = rebase_step h (step c ∅)
  /\ config_gen_free (target (step c ∅)) = true.
Proof.
  destruct c as [|[e p] callers]; [now split|].
  cbn. unfold frame_gen_free. cbn.
  intros H. apply andb_prop in H as [H Hcallers].
  apply andb_prop in H as [He Hp].
  destruct p as [ | attrs | stack | s stack | stack | parts stack | ]; cbn in *.
  - gen_free_done.
  - destruct attrs as [|[key v] attrs]; cbn.
    + destruct (children e) as [|c0 cs] eqn:Hc.
      * destruct (option_on (tag e) "shorten_empty_tag" true); gen_free_done.
      * gen_free_done.
    + gen_free_done.
  - destruct stack as [|it outer]; cbn; [gen_free_done|].
    cbn in Hp. apply andb_prop in Hp as [Hit Houter].
    destruct it as [l|g]; [|discriminate]. cbn in Hit.
    destruct l as [|child l]; cbn; [gen_free_done|].
    cbn in Hit. apply andb_prop in Hit as [Hchild Hl].
    destruct child as [ | b | n | s | d | l' | t | parts | e' | g]; cbn;
      try discriminate.
    + gen_free_done.
    + destruct b; gen_free_done.
    + unfold descend, truthy. destruct (n =? 0)%Z; gen_free_done.
    + destruct (option_on (tag e) "cdata_section" false); gen_free_done.
    + destruct d as [|kv d]; cbn; rewrite ?gen_free_keys; gen_free_done.
    + cbn in Hchild. destruct l' as [|x l']; gen_free_done.
    + gen_free_done.
    + gen_free_done.
    + rewrite gen_free_elem in Hchild. gen_free_done.
  - gen_free_done.
  - gen_free_done.
  - destruct parts as [|p parts]; gen_free_done.
  - now split.
Qed.

Lemma drain_gen_free n : forall c h,
  config_gen_free c = true ->
  drain n c h = (fst (drain n c ∅), rebase h (snd (drain n c ∅))).
Proof.
  induction n as [|n IH]; intros c h Hc; [reflexivity|].
  destruct (step_gen_free c h Hc) as [E G].
  destruct (step_gen_free c ∅ Hc) as [E0 _].
  simpl. rewrite E. clear E.
  destruct (step c ∅) as [s c' h0 | c' h0 | h0 | err h0]; simpl in *;
    injection E0 as ->; try reflexivity.
  - rewrite (IH c' h G). now destruct (drain n c' ∅).
  - apply IH, G.
Qed.

(** C10: the iterator of an element whose tree holds no generator neither
    reads nor writes the heap: a run from any heap is the run from the empty
    heap, it leaves the heap as it found it, and so a second iteration or
    stringification, started where the first one ended, gives the same
    fragments and the same ending; when the tree is static this is the
    reading of the tree. *)
Theorem serialization_repeatable (e : Element) :
  forallb gen_free (children e) = true ->
  forall n h,
    drain n (Element_iter e) h
      = (fst (drain n (Element_iter e) ∅), rebase h (snd (drain n (Element_iter e) ∅)))
    /\ heap_of (snd (drain n (Element_iter e) h)) = h
    /\ drain n (Element_iter e) (heap_of (snd (drain n (Element_iter e) h)))
       = drain n (Element_iter e) h
    /\ Element_str n e (heap_of (snd (drain n (Element_iter e) h))) = Element_str n e h
    /\ (forallb static (children e) = true ->
        serializes (Element_iter e) h (Element_frags e) h).
Proof.
  intros Hg n h.
  assert (Hc : config_gen_free (Element_iter e) = true).
  { unfold Element_iter, config_gen_free, frame_gen_free. simpl. now rewrite Hg. }
  pose proof (drain_gen_free n _ h Hc) as E.
  assert (Hh : heap_of (snd (drain n (Element_iter e) h)) = h).
  { rewrite E. simpl. now destruct (snd (drain n (Element_iter e) ∅)). }
  split; [exact E|]. split; [exact Hh|]. split; [now rewrite Hh|].
  split; [now rewrite Hh|]. apply static_serializes.
Qed.

(** At [div(p("hi"), ["a", None], class_="x")], with a generator in the heap
    that no child refers to. *)
Lemma serialization_repeatable_witness :
  let e := mkElement (mkTag "div" [])
             [VElem (mkElement (mkTag "p" []) [VStr "hi"] []); VList [VStr "a"; VNone]]
             [("class", AStr "x")] in
  let h : heap := {[ 0 := mkGen (fun _ => GStop) 0 true ]} in
  heap_of (snd (drain 20 (Element_iter e) h)) = h
  /\ drain 20 (Element_iter e) (heap_of (snd (drain 20 (Element_iter e) h)))
     = drain 20 (Element_iter e) h.
Proof.
  intros e h.
  destruct (serialization_repeatable e eq_refl 20 h) as (_ & H1 & H2 & _).
  split; [exact H1 | exact H2].
Defined.

(** The hypothesis matters: a generator child is consumed by the first
    iteration, and the second one finds it exhausted. *)
Lemma generator_child_is_one_shot :
  let e := mkElement (mkTag "p" []) [VGen 0] [] in
  let h : heap :=
    {[ 0 := mkGen (fun k => if Nat.ltb k 2 then GYield (VStr "x") else GStop) 0 true ]} in
  fst (drain 20 (Element_iter e) h) = ["<p"; ">"; "x"; "x"; "</p>"]
  /\ fst (drain 20 (Element_iter e) (heap_of (snd (drain 20 (Element_iter e) h))))
     = ["<p"; ">"; "</p>"].
Proof. split; vm_compute; reflexivity. Qed.

(** ** Where exceptions come from *)

Lemma same_code_refl h : same_code h h.
Proof. now intros g. Qed.

Lemma same_code_trans h1 h2 h3 : same_code h1 h2 -> same_code h2 h3 -> same_code h1 h3.
Proof. intros H12 H23 g. now rewrite H23, H12. Qed.

Lemma raised_by_generator_back h h' err :
  same_code h h' -> raised_by_generator h' err -> raised_by_generator h err.
Proof.
  intros Hs (g & gen & k & Hg & Hk). specialize (Hs g). rewrite Hg in Hs.
  destruct (h !! g) as [gen0|] eqn:E; [|discriminate].
  simpl in Hs. injection Hs as Hb.
  exists g, gen0, k. split; [exact E|]. now rewrite <- Hb.
Qed.

Lemma same_code_insert h g gen p a :
  h !! g = Some gen -> same_code h (<[g := mkGen (body gen) p a]> h).
Proof.
  intros Hg g'. destruct (decide (g = g')) as [<-|Hne].
  - now rewrite lookup_insert_eq, Hg.
  - now rewrite lookup_insert_ne.
Qed.

Lemma gen_next_spec g h p h' :
  gen_next g h = (p, h') ->
  same_code h h' /\ forall err, p = Broke err -> raised_by_generator h err.
Proof.
  unfold gen_next. destruct (h !! g) as [gen|] eqn:Hg.
  - destruct (alive gen).
    + destruct (body gen (pos gen)) as [v| |err0] eqn:Hb; intros [= <- <-];
        (split; [now apply same_code_insert|]); intros err [=].
      subst. now exists g, gen, (pos gen).
    + intros [= <- <-]. split; [apply same_code_refl | discriminate].
  - intros [= <- <-]. split; [apply same_code_refl | discriminate].
Qed.

Lemma flat_child_spec (e : Element) child stack h :
  match flat_child e child stack h with
  | FYield _ _ h' | FTau _ h' | FStop h' => h' = h
  | FRaise err h' => h' = h /\ raised_by_iter err
  end.
Proof.
  destruct child as [ | b | n | s | d | l | t | parts | e' | g]; try reflexivity.
  - destruct b; simpl; [|reflexivity].
    split; [reflexivity|]. now exists (VBool true).
  - unfold flat_child, descend, truthy. destruct (n =? 0)%Z; simpl; [reflexivity|].
    split; [reflexivity|]. now exists (VInt n).
  - now destruct d.
  - now destruct l.
  - simpl. split; [reflexivity|]. now exists (VTag t).
Qed.

Lemma flat_children_spec (e : Element) stack h :
  match flat_children e stack h with
  | FYield _ _ h' | FTau _ h' | FStop h' => same_code h h'
  | FRaise err h' =>
      same_code h h' /\ (raised_by_iter err \/ raised_by_generator h err)
  end.
Proof.
  destruct stack as [|it outer]; simpl; [apply same_code_refl|].
  destruct it as [l|g]; simpl.
  - destruct l as [|child l]; [apply same_code_refl|].
    pose proof (flat_child_spec e child (ItList l :: outer) h) as H.
    destruct (flat_child e child (ItList l :: outer) h); subst;
      try apply same_code_refl.
    destruct H as [-> H]. split; [apply same_code_refl | now left].
  - destruct (gen_next g h) as [p h'] eqn:E.
    apply gen_next_spec in E as [Hs Hb].
    destruct p as [child| |err].
    + pose proof (flat_child_spec e child (ItGen g :: outer) h') as H.
      destruct (flat_child e child (ItGen g :: outer) h'); subst; try exact Hs.
      destruct H as [-> H]. split; [exact Hs | now left].
    + exact Hs.
    + split; [exact Hs|]. right. now apply Hb.
Qed.

Lemma step_spec (c : config) (h : heap) :
  same_code h (heap_after (step c h))
  /\ forall err h', step c h = Fail err h' ->
       raised_by_iter err \/ raised_by_generator h err.
Proof.
  destruct c as [|[e p] callers]; simpl; [split; [apply same_code_refl | discriminate]|].
  destruct p as [ | attrs | stack | s stack | stack | parts stack | ]; simpl;
    try (split; [apply same_code_refl | discriminate]).
  - destruct attrs as [|[key v] attrs]; [destruct (children e)|];
      try destruct (option_on (tag e) "shorten_empty_tag" true);
      (split; [apply same_code_refl | discriminate]).
  - pose proof (flat_children_spec e stack h) as H.
    destruct (flat_children e stack h) as [child st h1 | st h1 | h1 | err h1].
    + destruct child; try destruct (option_on (tag e) "cdata_section" false);
        (split; [exact H | discriminate]).
    + split; [exact H | discriminate].
    + split; [exact H | discriminate].
    + destruct H as [Hs Herr]. split; [exact Hs|]. now intros ? ? [= <- <-].
  - destruct parts; (split; [apply same_code_refl | discriminate]).
Qed.

(** An exception that ends an iteration is the [TypeError] of [iter] on an
    object without [__iter__], or one that a generator of the heap raises. *)
Lemma drain_errors n : forall c h out err h',
  drain n c h = (out, Failed err h') ->
  raised_by_iter err \/ raised_by_generator h err.
Proof.
  induction n as [|n IH]; intros c h out err h'; simpl; [discriminate|].
  destruct (step_spec c h) as [Hs Hf].
  destruct (step c h) as [s c1 h1 | c1 h1 | h1 | err1 h1] eqn:E; simpl in Hs.
  - destruct (drain n c1 h1) as [out1 fin1] eqn:D. intros [= <- ->].
    destruct (IH _ _ _ _ _ D) as [H|H]; [now left|].
    right. eapply raised_by_generator_back; eauto.
  - intros D. destruct (IH _ _ _ _ _ D) as [H|H]; [now left|].
    right. eapply raised_by_generator_back; eauto.
  - discriminate.
  - intros [= <- <- <-]. eapply Hf. reflexivity.
Qed.

(** ** Successive calls of [__next__] *)

Lemma next_emit fuel c h s c' h' :
  step c h = Emit s c' h' -> next (S fuel) c h = (Some s, Running c' h').
Proof. intros H. simpl. now rewrite H. Qed.

Lemma next_tau fuel c h c' h' :
  step c h = Tau c' h' -> next (S fuel) c h = next fuel c' h'.
Proof. intros H. simpl. now rewrite H. Qed.

Lemma take_cons n fuel c h s c' h' :
  next fuel c h = (Some s, Running c' h') ->
  take (S n) fuel c h = (let (out, fin) := take n fuel c' h' in (s :: out, fin)).
Proof. intros H. simpl. now rewrite H. Qed.

Lemma take_app n : forall m fuel c h out c' h',
  take n fuel c h = (out, Running c' h') ->
  length out = n ->
  take (n + m) fuel c h = (let (out', fin) := take m fuel c' h' in (out ++ out', fin)).
Proof.
  induction n as [|n IH]; intros m fuel c h out c' h' H Hlen.
  - injection H as <- <- <-. simpl. now destruct (take m fuel c h).
  - simpl in H |- *.
    destruct (next fuel c h) as [[s|] [h1|err h1|c1 h1]];
      try (injection H as <- _; discriminate).
    destruct (take n fuel c1 h1) as [out1 fin1] eqn:T.
    injection H as <- ->. simpl in Hlen. injection Hlen as Hlen.
    rewrite (IH m fuel c1 h1 out1 c' h' T Hlen).
    now destruct (take m fuel c' h').
Qed.

Lemma next_runs fuel : forall c h s c' h',
  next fuel c h = (Some s, Running c' h') -> runs c h [s] c' h'.
Proof.
  induction fuel as [|fuel IH]; intros c h s c' h'; simpl; [discriminate|].
  destruct (step c h) as [s1 c1 h1 | c1 h1 | h1 | err h1] eqn:E; try discriminate.
  - intros [= <- <- <-]. now apply runs_emit.
  - intros H. eapply tau_runs; [exact E | now apply IH].
Qed.

(** The fragments obtained by successive calls are a run of the iterator. *)
Lemma take_runs n : forall fuel c h out c' h',
  take n fuel c h = (out, Running c' h') -> length out = n -> runs c h out c' h'.
Proof.
  induction n as [|n IH]; intros fuel c h out c' h' H Hlen.
  - injection H as <- <- <-. apply runs_refl.
  - simpl in H.
    destruct (next fuel c h) as [[s|] [h1|err h1|c1 h1]] eqn:N;
      try (injection H as <- _; discriminate).
    destruct (take n fuel c1 h1) as [out1 fin1] eqn:T.
    injection H as <- ->. simpl in Hlen. injection Hlen as Hlen.
    change (s :: out1) with ([s] ++ out1).
    eapply runs_trans; [eapply next_runs; exact N | eapply IH; eauto].
Qed.

Lemma take_attrs (e : Element) callers h fuel rest :
  take (length (attrs_frags rest)) (S fuel) (mkFrame e (InAttrs rest) :: callers) h
  = (attrs_frags rest, Running (mkFrame e (InAttrs []) :: callers) h).
Proof.
  induction rest as [|[key v] rest IH]; [reflexivity|].
  change (attrs_frags ((key, v) :: rest)) with (attr_fragment key v :: attrs_frags rest).
  cbn [length].
  rewrite (take_cons _ _ _ _ (attr_fragment key v)
             (mkFrame e (InAttrs rest) :: callers) h) by reflexivity.
  now rewrite IH.
Qed.

(** The tag, the attributes and [">"] come from as many calls, none of
    which touches the heap. *)
Lemma take_header (e : Element) h fuel :
  children e <> [] ->
  take (length (open_tag (tag e) :: attrs_frags (attributes e) ++ [">"])) (S fuel)
       (Element_iter e) h
  = (open_tag (tag e) :: attrs_frags (attributes e) ++ [">"],
     Running [mkFrame e (InChildren [ItList (children e)])] h).
Proof.
  intros Hc. cbn [length]. rewrite length_app.
  rewrite (take_cons _ _ _ _ (open_tag (tag e))
             (mkFrame e (InAttrs (attributes e)) :: []) h) by reflexivity.
  rewrite (take_app _ _ _ _ _ _ _ _ (take_attrs e [] h fuel (attributes e)) eq_refl).
  cbn [length].
  rewrite (take_cons _ _ _ _ ">"
             [mkFrame e (InChildren [ItList (children e)])] h); [reflexivity|].
  apply next_emit. simpl. now destruct (children e).
Qed.

(** ** A generator of text as a child *)

Lemma gen_next_yield g (h : heap) b p v :
  h !! g = Some (mkGen b p true) -> b p = GYield v ->
  gen_next g h = (Item v, <[g := mkGen b (S p) true]> h).
Proof. intros Hg Hb. unfold gen_next. rewrite Hg. simpl. now rewrite Hb. Qed.

Lemma gen_next_raise g (h : heap) b p err :
  h !! g = Some (mkGen b p true) -> b p = GRaise err ->
  gen_next g h = (Broke err, <[g := mkGen b p false]> h).
Proof. intros Hg Hb. unfold gen_next. rewrite Hg. simpl. now rewrite Hb. Qed.

Lemma leaves_succ cdata f k :
  leaves cdata f (S k) = text_frags cdata (f 0) ++ leaves cdata (fun j => f (S j)) k.
Proof.
  unfold leaves. cbn [seq map flat_map].
  now rewrite <- seq_shift, map_map.
Qed.

Section stream.
Variables (e : Element) (g : nat) (outer : list iterator) (callers : config).
Variables (b : nat -> gstep) (fuel : nat).

Lemma take_text_gen (h : heap) p s :
  h !! g = Some (mkGen b p true) -> b p = GYield (VStr s) ->
  take (length (text_frags (option_on (tag e) "cdata_section" false) s)) (S fuel)
       (mkFrame e (InChildren (ItGen g :: outer)) :: callers) h
  = (text_frags (option_on (tag e) "cdata_section" false) s,
     Running (mkFrame e (InChildren (ItGen g :: outer)) :: callers)
             (<[g := mkGen b (S p) true]> h)).
Proof using Type.
  intros Hg Hb. unfold text_frags.
  destruct (option_on (tag e) "cdata_section" false) eqn:E; cbn [length].
  - rewrite (take_cons _ _ _ _ "<![CDATA["
               (mkFrame e (InCdata s (ItGen g :: outer)) :: callers)
               (<[g := mkGen b (S p) true]> h)).
    + rewrite (take_cons _ _ _ _ s
                 (mkFrame e (AfterCdata (ItGen g :: outer)) :: callers)
                 (<[g := mkGen b (S p) true]> h)) by reflexivity.
      now rewrite (take_cons _ _ _ _ "]]>"
                 (mkFrame e (InChildren (ItGen g :: outer)) :: callers)
                 (<[g := mkGen b (S p) true]> h)) by reflexivity.
    + apply next_emit. simpl. rewrite (gen_next_yield _ _ _ _ _ Hg Hb). simpl.
      now rewrite E.
  - rewrite (take_cons _ _ _ _ (cgi_escape s false)
               (mkFrame e (InChildren (ItGen g :: outer)) :: callers)
               (<[g := mkGen b (S p) true]> h)); [reflexivity|].
    apply next_emit. simpl. rewrite (gen_next_yield _ _ _ _ _ Hg Hb). simpl.
    now rewrite E.
Qed.

(** Pulling [k] strings from the generator takes as many calls as they make
    fragments, and leaves the generator advanced by exactly [k]. *)
Lemma take_stream k : forall (h : heap) p f,
  h !! g = Some (mkGen b p true) ->
  (forall j, j < k -> b (p + j) = GYield (VStr (f j))) ->
  take (length (leaves (option_on (tag e) "cdata_section" false) f k)) (S fuel)
       (mkFrame e (InChildren (ItGen g :: outer)) :: callers) h
  = (leaves (option_on (tag e) "cdata_section" false) f k,
     Running (mkFrame e (InChildren (ItGen g :: outer)) :: callers)
             (<[g := mkGen b (p + k) true]> h)).
Proof using Type.
  induction k as [|k IH]; intros h p f Hg Hf.
  - rewrite Nat.add_0_r, (insert_id _ _ _ Hg). reflexivity.
  - rewrite leaves_succ, length_app.
    assert (H0 : b p = GYield (VStr (f 0))).
    { rewrite <- (Nat.add_0_r p) at 1. apply Hf. lia. }
    rewrite (take_app _ _ _ _ _ _ _ _ (take_text_gen h p (f 0) Hg H0) eq_refl).
    rewrite (IH (<[g := mkGen b (S p) true]> h) (S p) (fun j => f (S j))).
    + rewrite insert_insert_eq. now replace (S p + k) with (p + S k) by lia.
    + apply lookup_insert_eq.
    + intros j Hj. replace (S p + j) with (p + S j) by lia. apply Hf. lia.
Qed.

End stream.

Lemma advance_zero g gen (h : heap) :
  h !! g = Some gen -> alive gen = true -> advance g 0 gen h = h.
Proof.
  intros Hg Ha. unfold advance. apply insert_id. rewrite Hg.
  destruct gen as [b p a]. simpl in *. now rewrite Ha, Nat.add_0_r.
Qed.

Lemma text_frags_cons cdata s : exists x xs, text_frags cdata s = x :: xs.
Proof. unfold text_frags. destruct cdata; eauto. Qed.

(** The first call that reaches the generator starts the nested flattening
    and pulls once. *)
Lemma take_enter (e : Element) g rest b p s (h : heap) n :
  h !! g = Some (mkGen b p true) -> b p = GYield (VStr s) ->
  take (S n) 2 [mkFrame e (InChildren [ItList (VGen g :: rest)])] h
  = take (S n) 2 [mkFrame e (InChildren [ItGen g; ItList rest])] h.
Proof.
  intros Hg Hb. cbn [take].
  replace (next 2 [mkFrame e (InChildren [ItList (VGen g :: rest)])] h)
    with (next 1 [mkFrame e (InChildren [ItGen g; ItList rest])] h) by reflexivity.
  cbn [next]. simpl. rewrite (gen_next_yield _ _ _ _ _ Hg Hb). simpl.
  now destruct (option_on (tag e) "cdata_section" false).
Qed.

(** Laziness, in calls of [__next__]: after as many calls as there are
    fragments in the opening and in the first [k] strings of the generator,
    exactly [k] values have been pulled. *)
Lemma take_lazy (e : Element) (h : heap) g gen rest f k :
  children e = VGen g :: rest ->
  h !! g = Some gen -> alive gen = true ->
  (forall j, j < k -> body gen (pos gen + j) = GYield (VStr (f j))) ->
  exists c,
    take (length ((open_tag (tag e) :: attrs_frags (attributes e) ++ [">"])
                  ++ leaves (option_on (tag e) "cdata_section" false) f k)) 2
         (Element_iter e) h
    = ((open_tag (tag e) :: attrs_frags (attributes e) ++ [">"])
         ++ leaves (option_on (tag e) "cdata_section" false) f k,
       Running c (advance g k gen h)).
Proof.
  intros Hc Hg Ha Hf.
  assert (Hne : children e <> []) by (rewrite Hc; discriminate).
  rewrite length_app.
  rewrite (take_app _ _ _ _ _ _ _ _ (take_header e h 1 Hne) eq_refl).
  rewrite Hc. destruct gen as [b p a]. simpl in Ha, Hf. subst a.
  destruct k as [|k].
  - eexists. cbn [leaves seq map flat_map length take].
    rewrite (advance_zero _ _ _ Hg eq_refl). reflexivity.
  - assert (H0 : b p = GYield (VStr (f 0))).
    { rewrite <- (Nat.add_0_r p) at 1. apply Hf. lia. }
    pose proof (take_stream e g [ItList rest] [] b 1 (S k) h p f Hg Hf) as T.
    destruct (text_frags_cons (option_on (tag e) "cdata_section" false) (f 0))
      as (x & xs & Hx).
    rewrite leaves_succ, Hx in T |- *. cbn [length app] in T |- *.
    rewrite (take_enter e g rest b p (f 0) h _ Hg H0), T.
    eexists. reflexivity.
Qed.

(** The same in moves of the iterator. *)
Lemma stream_runs (e : Element) (h : heap) g gen rest f k :
  children e = VGen g :: rest ->
  h !! g = Some gen -> alive gen = true ->
  (forall j, j < k -> body gen (pos gen + j) = GYield (VStr (f j))) ->
  runs (Element_iter e) h
       ((open_tag (tag e) :: attrs_frags (attributes e) ++ [">"])
          ++ leaves (option_on (tag e) "cdata_section" false) f k)
       [mkFrame e (InChildren [ItGen g; ItList rest])] (advance g k gen h).
Proof.
  intros Hc Hg Ha Hf.
  assert (Hne : children e <> []) by (rewrite Hc; discriminate).
  eapply runs_trans; [apply (runs_gt e [] h Hne)|].
  rewrite Hc. eapply tau_runs; [reflexivity|].
  destruct gen as [b p a]. simpl in Ha, Hf. subst a.
  eapply take_runs; [apply (take_stream e g [ItList rest] [] b 1 k h p f Hg Hf)|].
  reflexivity.
Qed.

(** ** Exceptions during iteration *)

(** C3 (as worded): [Tag("p")(5)] is constructed, and [5] has a string form,
    but the iteration raises a [TypeError] after ["<p"] and [">"]: a child
    that is not a string is iterated, not converted. *)
Lemma int_child_counterexample :
  Tag_call (mkTag "p" []) [VInt 5] [] = Ok (mkElement (mkTag "p" []) [VInt 5] [])
  /\ py_str (AInt 5) = "5"
  /\ breaks (Element_iter (mkElement (mkTag "p" []) [VInt 5] [])) ∅
            ["<p"; ">"] (TypeError "'int' object is not iterable") ∅
  /\ forall out h',
       ~ serializes (Element_iter (mkElement (mkTag "p" []) [VInt 5] [])) ∅ out h'.
Proof.
  assert (B : breaks (Element_iter (mkElement (mkTag "p" []) [VInt 5] [])) ∅
                ["<p"; ">"] (TypeError "'int' object is not iterable") ∅)
    by (exists 3; vm_compute; reflexivity).
  repeat split; try exact B.
  intros out h' S. exact (serializes_not_breaks _ _ _ _ _ _ _ S B).
Qed.

(** ** The examples of the docstrings and of the specification *)

Example doc_raw_string :
  RawString_str ["<em>It has a "; "raw HTML string.</em>"]
  = "<em>It has a raw HTML string.</em>"
  /\ RawString_iter ["<em>It has a"; " raw HTML string."; "</em>"]
     = ["<em>It has a"; " raw HTML string."; "</em>"].
Proof. split; reflexivity. Qed.

Example doc_strong :
  show 10 (elem (mkTag "strong" []) [VStr "This sentence is emphatic!"] [])
  = Some (Ok "<strong>This sentence is emphatic!</strong>").
Proof. vm_compute. reflexivity. Qed.

Example doc_script_not_shortened :
  let q := Str.dquote in
  show 10 (elem (mkTag "script" [("shorten_empty_tag", ABool false)]) []
             [("src", AStr "test.js"); ("type", AStr "text/javascript")])
  = Some (Ok ("<script src=" +:+ q +:+ "test.js" +:+ q +:+ " type=" +:+ q
              +:+ "text/javascript" +:+ q +:+ "></script>")).
Proof. vm_compute. reflexivity. Qed.

Example doc_script_cdata :
  let q := Str.dquote in
  show 10 (elem (mkTag "script" [("cdata_section", ABool true)]) [VStr "alert(1);"]
             [("type", AStr "text/javascript")])
  = Some (Ok ("<script type=" +:+ q +:+ "text/javascript" +:+ q
              +:+ "><![CDATA[alert(1);]]></script>")).
Proof. vm_compute. reflexivity. Qed.

Example doc_attributes_by_dict :
  let q := Str.dquote in
  show 10 (elem (mkTag "p" []) [VDict [("class", AStr "css class")]; VStr "text."] [])
  = Some (Ok ("<p class=" +:+ q +:+ "css class" +:+ q +:+ ">text.</p>")).
Proof. vm_compute. reflexivity. Qed.

Example doc_none_ignored :
  show 10 (elem (mkTag "p" []) [VStr "No class."] [("class_", ANone)])
  = Some (Ok "<p>No class.</p>")
  /\ show 10 (elem (mkTag "p" []) [VStr "a"; VNone; VStr "b"; VNone] [])
     = Some (Ok "<p>ab</p>").
Proof. split; vm_compute; reflexivity. Qed.

Example doc_escaped_text :
  show 10 (elem (mkTag "em" []) [VStr "love & peace"] [])
  = Some (Ok "<em>love &amp; peace</em>")
  /\ cgi_escape "<b>&" false = "&lt;b&gt;&amp;"
  /\ show 10 (elem (mkTag "div" []) [VRaw ["<b>&"]] []) = Some (Ok "<div><b>&</div>").
Proof. repeat split; vm_compute; reflexivity. Qed.

Example doc_nested :
  let q := Str.dquote in
  show 20 (elem (mkTag "div" []) [elem (mkTag "p" []) [VStr "hi"] []] [("class_", AStr "x")])
  = Some (Ok ("<div class=" +:+ q +:+ "x" +:+ q +:+ "><p>hi</p></div>")).
Proof. vm_compute. reflexivity. Qed.

(** [ul(li(...) for member in members)]: the generator expression is a
    generator object of the heap that yields the two [li] elements. *)
Example doc_generator_expression :
  let q := Str.dquote in
  let li := mkTag "li" [] in
  let items := [elem li [VStr "Hong, MinHee"] [("class_", AStr "admin")];
                elem li [VStr "John Doe"] [("class_", AStr "")]] in
  let gen := mkGen (fun j => match nth_error items j with
                             | Some v => GYield v
                             | None => GStop
                             end) 0 true in
  Element_str 30 (mkElement (mkTag "ul" []) [VGen 0] []) {[ 0 := gen ]}
  = Some (Ok ("<ul><li class=" +:+ q +:+ "admin" +:+ q +:+ ">Hong, MinHee</li><li class="
              +:+ q +:+ q +:+ ">John Doe</li></ul>")).
Proof. vm_compute. reflexivity. Qed.

(** The docstring of [Element.__iter__]: nothing is pulled from
    [test_generator] before the first fragment of a child is asked for, and
    one value is pulled for each of the next calls. *)
Example doc_lazy_children :
  let q := Str.dquote in
  let fin := elem (mkTag "em" []) [VStr "fin"] [] in
  let gen := mkGen (fun j => match j with
                             | 0 => GYield (VStr "0")
                             | 1 => GYield (VStr "1")
                             | 2 => GYield (VStr "2")
                             | 3 => GYield fin
                             | _ => GStop
                             end) 0 true in
  let e := mkElement (mkTag "p" []) [VGen 0] [("class", AStr "numbers")] in
  let pulled (r : list string * ending) := pos <$> (heap_of (snd r) !! 0) in
  fst (take 3 5 (Element_iter e) {[ 0 := gen ]})
    = ["<p"; " class=" +:+ q +:+ "numbers" +:+ q; ">"]
  /\ pulled (take 3 5 (Element_iter e) {[ 0 := gen ]}) = Some 0
  /\ pulled (take 4 5 (Element_iter e) {[ 0 := gen ]}) = Some 1
  /\ pulled (take 6 5 (Element_iter e) {[ 0 := gen ]}) = Some 3
  /\ fst (drain 30 (Element_iter e) {[ 0 := gen ]})
     = ["<p"; " class=" +:+ q +:+ "numbers" +:+ q; ">"; "0"; "1"; "2";
        "<em"; ">"; "fin"; "</em>"; "</p>"].
Proof. repeat split; vm_compute; reflexivity. Qed.

Example doc_normalize :
  normalize "class_" = "class" /\ normalize "attr_name" = "attr-name"
  /\ normalize "__a_b__" = "a-b" /\ normalize "___" = "".
Proof. repeat split; reflexivity. Qed.

(** * Further properties of the code *)

(** ** Calling a tag *)


(** ** The attribute dictionary *)

Lemma existsb_eqb_In k ks : existsb (String.eqb k) ks = true <-> In k ks.
Proof.
  rewrite existsb_exists. split.
  - intros (x & Hx & E). apply String.eqb_eq in E. now subst.
  - intros H. exists k. split; [exact H | apply String.eqb_refl].
Qed.

Lemma keys_set d k v : Dict.keys (Dict.set d k v) = add_key (Dict.keys d) k.
Proof.
  unfold add_key. induction d as [|[k' v'] r IH]; simpl; [reflexivity|].
  rewrite (String.eqb_sym k k').
  destruct (String.eqb k' k) eqn:E; simpl; [reflexivity|].
  rewrite IH. unfold Dict.keys.
  now destruct (existsb (String.eqb k) (map fst r)).
Qed.

Lemma keys_update c : forall d,
  Dict.keys (Dict.update d c) = fold_left add_key (map fst c) (Dict.keys d).
Proof.
  unfold Dict.update. induction c as [|[k v] c IH]; intros d; simpl; [reflexivity|].
  now rewrite IH, keys_set.
Qed.

Lemma add_key_NoDup ks k : List.NoDup ks -> List.NoDup (add_key ks k).
Proof.
  intros H. unfold add_key. destruct (existsb (String.eqb k) ks) eqn:E; [exact H|].
  assert (Hn : ~ In k ks).
  { intros Hin. apply existsb_eqb_In in Hin. congruence. }
  clear E. induction H as [|x l Hx Hl IH]; simpl.
  - constructor; [intros []|constructor].
  - constructor.
    + rewrite in_app_iff. intros [H'|[->|[]]]; [now apply Hx|].
      apply Hn. now left.
    + apply IH. intros H'. apply Hn. now right.
Qed.

Lemma fold_add_key_NoDup ks : forall acc,
  List.NoDup acc -> List.NoDup (fold_left add_key ks acc).
Proof.
  induction ks as [|k ks IH]; intros acc H; simpl; [exact H|].
  apply IH. now apply add_key_NoDup.
Qed.

Lemma get_set d k v k' :
  Dict.get (Dict.set d k v) k' = if String.eqb k k' then Some v else Dict.get d k'.
Proof.
  induction d as [|[k0 v0] r IH]; simpl.
  - reflexivity.
  - destruct (String.eqb k0 k) eqn:E; simpl.
    + apply String.eqb_eq in E. subst k0.
      now destruct (String.eqb k k').
    + destruct (String.eqb k0 k') eqn:E'; [|exact IH].
      apply String.eqb_eq in E'. subst k0. now rewrite String.eqb_sym, E.
Qed.

Lemma get_update c : forall d k,
  Dict.get (Dict.update d c) k
  = match last_of c k with Some v => Some v | None => Dict.get d k end.
Proof.
  unfold Dict.update. induction c as [|[k0 v0] c IH]; intros d k; simpl; [reflexivity|].
  rewrite IH, get_set. destruct (last_of c k); [reflexivity|].
  now destruct (String.eqb k0 k).
Qed.

(** In a constructed element no attribute name occurs twice.  When several
    supplied names have the same normal form, the value of that attribute is
    the one that the merged dictionary holds for the last of them in the
    order of the merged dictionary, among those whose value there is not
    [None].  The merged dictionary keeps a name at the place where it was
    first inserted (the keywords first, then the names that the mappings
    add, in the order of the arguments) and holds for it the value assigned
    last: so the order is that of the first insertion of the names, not
    that of the supply of the values. *)
Theorem attributes_unique_last_wins (args : list value) (kwargs : dict) (e : Element) :
  Element_init args kwargs = Ok e ->
  List.NoDup (Dict.keys (attributes e))
  /\ forall k, Dict.get (attributes e) k
               = last_of (normalized_items (merge_dicts kwargs args)) k.
Proof.
  intros He. destruct (attributes_of_init _ _ _ He) as (Ha & _).
  rewrite Ha. unfold Dict.of_items. split.
  - rewrite keys_update. apply fold_add_key_NoDup. constructor.
  - intros k. rewrite get_update. now destruct (last_of _ k).
Qed.

(** At [Element(p, {"_class": "b"}, {"class_": "c"}, class_="a", id=None)]:
    the merged dictionary is [class_: "c"], [id: None], [_class: "b"]; the
    one attribute is [class], with value ["b"], that of the name inserted
    last, although ["c"] is supplied after it. *)
Lemma attributes_unique_last_wins_witness :
  let e := mkElement (mkTag "p" []) [] [("class", AStr "b")] in
  let args := [VTag (mkTag "p" []); VDict [("_class", AStr "b")];
               VDict [("class_", AStr "c")]] in
  let kwargs := [("class_", AStr "a"); ("id", ANone)] in
  Element_init args kwargs = Ok e
  /\ merge_dicts kwargs args
     = [("class_", AStr "c"); ("id", ANone); ("_class", AStr "b")]
  /\ List.NoDup (Dict.keys (attributes e))
  /\ Dict.get (attributes e) "class" = Some (AStr "b").
Proof.
  intros e args kwargs.
  destruct (attributes_unique_last_wins args kwargs e eq_refl) as [H1 H2].
  split; [reflexivity | split; [reflexivity | split; [exact H1 | exact (H2 "class")]]].
Defined.

Lemma update_app d c1 c2 :
  Dict.update (Dict.update d c1) c2 = Dict.update d (c1 ++ c2).
Proof. unfold Dict.update. now rewrite fold_left_app. Qed.

Lemma merge_dicts_update args : forall kwargs,
  merge_dicts kwargs args = Dict.update kwargs (flat_map mapping_items args).
Proof.
  induction args as [|c args IH]; intros kwargs; [reflexivity|].
  change (merge_dicts kwargs (c :: args))
    with (merge_dicts (match c with VDict d => Dict.update kwargs d | _ => kwargs end)
                      args).
  rewrite IH. cbn [flat_map].
  destruct c; try reflexivity. apply update_app.
Qed.

Lemma keys_update_extends c : forall d,
  exists new, Dict.keys (Dict.update d c) = Dict.keys d ++ new.
Proof.
  intros d. rewrite keys_update. generalize (Dict.keys d) as ks.
  induction (map fst c) as [|k l IH]; intros ks; simpl.
  - exists []. now rewrite app_nil_r.
  - destruct (IH (add_key ks k)) as [new Hnew]. rewrite Hnew.
    unfold add_key. destruct (existsb (String.eqb k) ks).
    + now exists new.
    + exists (k :: new). now rewrite <- app_assoc.
Qed.

(** The loop that merges the positional mappings: a name takes the value
    that the last mapping to hold it gives, whatever a keyword or an earlier
    mapping gave, and keeps its keyword value when no mapping holds it; the
    keyword names keep their places, the new names follow. *)
Theorem mappings_override_in_order (kwargs : dict) (args : list value) :
  (forall k, Dict.get (merge_dicts kwargs args) k
             = match last_of (flat_map mapping_items args) k with
               | Some v => Some v
               | None => Dict.get kwargs k
               end)
  /\ exists new, Dict.keys (merge_dicts kwargs args) = Dict.keys kwargs ++ new.
Proof.
  rewrite merge_dicts_update. split.
  - intros k. apply get_update.
  - apply keys_update_extends.
Qed.

(** ** Normal forms of attribute names *)

(** Normalising twice is normalising once, and a name without underscore is
    already normal. *)
Theorem normalize_idempotent (key : string) :
  normalize (normalize key) = normalize key
  /\ (Str.mem "_" key = false -> normalize key = key).
Proof.
  split; [|apply normalize_plain].
  apply normalize_plain, normalize_no_underscore.
Qed.

Lemma normalize_idempotent_witness :
  normalize (normalize "__data_x_") = "data-x" /\ normalize "data-x" = "data-x".
Proof.
  destruct (normalize_idempotent "__data_x_") as [H1 _].
  destruct (normalize_idempotent "data-x") as [_ H2].
  split; [rewrite H1; reflexivity | apply H2; reflexivity].
Defined.

(** ** Strings of elements *)

Lemma join_app (l1 l2 : list string) :
  Str.join (l1 ++ l2) = Str.join l1 +:+ Str.join l2.
Proof.
  induction l1 as [|x l1 IH]; simpl; [reflexivity|].
  unfold Str.join in *. simpl. now rewrite IH, append_assoc.
Qed.

Lemma join_singleton (s : string) : Str.join [s] = s.
Proof. apply append_nil_r. Qed.

Lemma join_element (t : Tag) (attrs : dict) (body : list string) :
  Str.join (open_tag t :: attrs_frags attrs ++ ">" :: body ++ [close_tag t])
  = Str.join (open_tag t :: attrs_frags attrs) +:+ ">" +:+ Str.join body +:+ close_tag t.
Proof.
  change (open_tag t :: attrs_frags attrs ++ ">" :: body ++ [close_tag t])
    with ((open_tag t :: attrs_frags attrs) ++ [">"] ++ body ++ [close_tag t]).
  now rewrite !join_app, !join_singleton.
Qed.

(** A complete iteration gives [Element.__str__] its result, from some bound
    on. *)
Lemma serializes_str (e : Element) (h : heap) out h' :
  serializes (Element_iter e) h out h' ->
  exists n, forall m, n <= m -> Element_str m e h = Some (Ok (Str.join out)).
Proof.
  intros [n Hn]. exists n. intros m Hm. unfold Element_str.
  replace m with (n + (m - n)) by lia.
  now rewrite (drain_settled n (m - n) _ _ _ _ Hn ltac:(discriminate)).
Qed.

Lemma frags_with_children (t : Tag) (attrs : dict) c cs :
  Element_frags (mkElement t (c :: cs) attrs)
  = open_tag t :: attrs_frags attrs
      ++ ">" :: flat_map (child_frags (option_on t "cdata_section" false)) (c :: cs)
      ++ [close_tag t].
Proof. reflexivity. Qed.

Lemma raw_child_serializes (t : Tag) (attrs : dict) (parts : list string) (h : heap) :
  serializes (Element_iter (mkElement t [VRaw parts] attrs)) h
             (open_tag t :: attrs_frags attrs ++ ">" :: parts ++ [close_tag t]) h.
Proof.
  pose proof (static_serializes (mkElement t [VRaw parts] attrs) h eq_refl) as S.
  rewrite frags_with_children in S. simpl flat_map in S.
  now rewrite app_nil_r in S.
Qed.

Lemma raw_child_str (t : Tag) (attrs : dict) (parts : list string) (h : heap) :
  exists n, forall m, n <= m ->
    Element_str m (mkElement t [VRaw parts] attrs) h
    = Some (Ok (Str.join (open_tag t :: attrs_frags attrs)
                +:+ ">" +:+ RawString_str parts +:+ close_tag t)).
Proof.
  destruct (serializes_str _ _ _ _ (raw_child_serializes t attrs parts h)) as [n Hn].
  exists n. intros m Hm. rewrite (Hn m Hm), join_element. reflexivity.
Qed.

(** A RawString child is emitted as it is, fragment by fragment, whatever
    the options of the tag; in the string of the element it is the string of
    the RawString. *)
Theorem raw_child_verbatim (t : Tag) (attrs : dict) (parts : list string) (h : heap) :
  serializes (Element_iter (mkElement t [VRaw parts] attrs)) h
             (open_tag t :: attrs_frags attrs ++ ">" :: parts ++ [close_tag t]) h
  /\ exists n, forall m, n <= m ->
       Element_str m (mkElement t [VRaw parts] attrs) h
       = Some (Ok (Str.join (open_tag t :: attrs_frags attrs)
                   +:+ ">" +:+ RawString_str parts +:+ close_tag t)).
Proof. split; [apply raw_child_serializes | apply raw_child_str]. Qed.

(** An element nested as a child contributes its own string, so that it can
    be replaced by a RawString that holds this string. *)
Theorem nested_element_composes (t : Tag) (attrs : dict) (c : Element) (h : heap) :
  forallb static (children c) = true ->
  exists n s,
    Element_str n c h = Some (Ok s)
    /\ Element_str n (mkElement t [VElem c] attrs) h
       = Some (Ok (Str.join (open_tag t :: attrs_frags attrs)
                   +:+ ">" +:+ s +:+ close_tag t))
    /\ Element_str n (mkElement t [VRaw [s]] attrs) h
       = Element_str n (mkElement t [VElem c] attrs) h.
Proof.
  intros Hs.
  destruct (serializes_str _ _ _ _ (static_serializes c h Hs)) as [n1 H1].
  assert (Hs' : forallb static (children (mkElement t [VElem c] attrs)) = true).
  { change (static (VElem c) && true = true). now rewrite static_elem, Hs. }
  destruct (serializes_str _ _ _ _
              (static_serializes (mkElement t [VElem c] attrs) h Hs')) as [n2 H2].
  destruct (raw_child_str t attrs [Str.join (Element_frags c)] h) as [n3 H3].
  exists (n1 + n2 + n3), (Str.join (Element_frags c)).
  rewrite (H1 (n1 + n2 + n3) ltac:(lia)), (H2 (n1 + n2 + n3) ltac:(lia)),
    (H3 (n1 + n2 + n3) ltac:(lia)).
  rewrite frags_with_children. cbn [flat_map].
  rewrite app_nil_r, child_frags_elem, join_element.
  unfold RawString_str. rewrite join_singleton. repeat split.
Qed.

(** At [div(p("hi"), class_="x")]. *)
Lemma nested_element_composes_witness :
  exists n s,
    Element_str n (mkElement (mkTag "p" []) [VStr "hi"] []) ∅ = Some (Ok s)
    /\ Element_str n (mkElement (mkTag "div" [])
                        [VElem (mkElement (mkTag "p" []) [VStr "hi"] [])]
                        [("class", AStr "x")]) ∅
       = Some (Ok (Str.join (open_tag (mkTag "div" [])
                               :: attrs_frags [("class", AStr "x")])
                   +:+ ">" +:+ s +:+ close_tag (mkTag "div" [])))
    /\ Element_str n (mkElement (mkTag "div" []) [VRaw [s]] [("class", AStr "x")]) ∅
       = Element_str n (mkElement (mkTag "div" [])
                          [VElem (mkElement (mkTag "p" []) [VStr "hi"] [])]
                          [("class", AStr "x")]) ∅.
Proof.
  exact (nested_element_composes (mkTag "div" []) [("class", AStr "x")]
           (mkElement (mkTag "p" []) [VStr "hi"] []) ∅ eq_refl).
Defined.

(** ** Text children *)

Lemma replace_app old new (a b : string) :
  Str.replace old new (a +:+ b) = Str.replace old new a +:+ Str.replace old new b.
Proof.
  induction a as [|x a IH]; [reflexivity|].
  rewrite append_cons. simpl. rewrite IH.
  destruct (Ascii.eqb x old); [now rewrite append_assoc | now rewrite append_cons].
Qed.

Lemma cgi_escape_app (a b : string) (quote : bool) :
  cgi_escape (a +:+ b) quote = cgi_escape a quote +:+ cgi_escape b quote.
Proof. unfold cgi_escape. destruct quote; now rewrite !replace_app. Qed.

Lemma cgi_escape_plain (s : string) :
  Str.mem "&" s = false -> Str.mem "<" s = false -> Str.mem ">" s = false ->
  cgi_escape s false = s.
Proof.
  intros Ha Hl Hg. unfold cgi_escape.
  now rewrite (replace_absent "&" _ s Ha), (replace_absent "<" _ s Hl),
    (replace_absent ">" _ s Hg).
Qed.

(** Under a tag without [cdata_section], a text child is one fragment, in
    which no angle bracket is left; a text without ampersand and angle
    brackets is emitted as it is. *)
Theorem text_child_escaped (t : Tag) (attrs : dict) (s : string) (h : heap) :
  option_on t "cdata_section" false = false ->
  serializes (Element_iter (mkElement t [VStr s] attrs)) h
             (open_tag t :: attrs_frags attrs
                ++ [">"; cgi_escape s false; close_tag t]) h
  /\ Str.mem "<" (cgi_escape s false) = false
  /\ Str.mem ">" (cgi_escape s false) = false
  /\ (Str.mem "&" s = false -> Str.mem "<" s = false -> Str.mem ">" s = false ->
      cgi_escape s false = s).
Proof.
  intros Hcd. split; [|split; [|split]].
  - pose proof (static_serializes (mkElement t [VStr s] attrs) h eq_refl) as S.
    rewrite frags_with_children in S. cbn [flat_map child_frags] in S.
    unfold text_frags in S. now rewrite Hcd in S.
  - apply cgi_escape_no_angle.
  - apply cgi_escape_no_angle.
  - apply cgi_escape_plain.
Qed.

(** At [em("1 < 2 & 3")] and at [em("plain")]. *)
Lemma text_child_escaped_witness :
  serializes (Element_iter (mkElement (mkTag "em" []) [VStr "1 < 2 & 3"] [])) ∅
             ["<em"; ">"; "1 &lt; 2 &amp; 3"; "</em>"] ∅
  /\ cgi_escape "plain" false = "plain".
Proof.
  destruct (text_child_escaped (mkTag "em" []) [] "1 < 2 & 3" ∅ eq_refl) as (H1 & _).
  destruct (text_child_escaped (mkTag "em" []) [] "plain" ∅ eq_refl) as (_ & _ & _ & H4).
  split; [exact H1 | apply H4; reflexivity].
Defined.

(** Under a tag with [cdata_section], a text child is written between
    ["<![CDATA["] and ["]]>"] exactly as it is, whatever it holds. *)
Theorem text_child_in_cdata (t : Tag) (attrs : dict) (s : string) (h : heap) :
  option_on t "cdata_section" false = true ->
  serializes (Element_iter (mkElement t [VStr s] attrs)) h
             (open_tag t :: attrs_frags attrs
                ++ [">"; "<![CDATA["; s; "]]>"; close_tag t]) h.
Proof.
  intros Hcd.
  pose proof (static_serializes (mkElement t [VStr s] attrs) h eq_refl) as S.
  rewrite frags_with_children in S. cbn [flat_map child_frags] in S.
  unfold text_frags in S. now rewrite Hcd in S.
Qed.

(** At [Tag("script", cdata_section=True)("a<b]]>")]. *)
Lemma text_child_in_cdata_witness :
  serializes
    (Element_iter (mkElement (mkTag "script" [("cdata_section", ABool true)])
                             [VStr "a<b]]>"] [])) ∅
    ["<script"; ">"; "<![CDATA["; "a<b]]>"; "]]>"; "</script>"] ∅.
Proof.
  exact (text_child_in_cdata (mkTag "script" [("cdata_section", ABool true)]) []
           "a<b]]>" ∅ eq_refl).
Defined.

(** Escaping goes through concatenation, so that, without [cdata_section],
    a text given in two pieces and the same text given in one piece make the
    same string. *)
Theorem text_pieces_concatenate (t : Tag) (attrs : dict) (a b : string) (h : heap) :
  option_on t "cdata_section" false = false ->
  cgi_escape (a +:+ b) false = cgi_escape a false +:+ cgi_escape b false
  /\ exists n, forall m, n <= m ->
       Element_str m (mkElement t [VStr a; VStr b] attrs) h
       = Element_str m (mkElement t [VStr (a +:+ b)] attrs) h
       /\ Element_str m (mkElement t [VStr (a +:+ b)] attrs) h
          = Some (Ok (Str.join (open_tag t :: attrs_frags attrs) +:+ ">"
                      +:+ cgi_escape (a +:+ b) false +:+ close_tag t)).
Proof.
  intros Hcd. split; [apply cgi_escape_app|].
  pose proof (static_serializes (mkElement t [VStr a; VStr b] attrs) h eq_refl) as S2.
  pose proof (static_serializes (mkElement t [VStr (a +:+ b)] attrs) h eq_refl) as S1.
  rewrite frags_with_children in S1, S2. cbn [flat_map child_frags] in S1, S2.
  unfold text_frags in S1, S2. rewrite Hcd in S1, S2.
  destruct (serializes_str _ _ _ _ S1) as [n1 H1].
  destruct (serializes_str _ _ _ _ S2) as [n2 H2].
  exists (n1 + n2). intros m Hm.
  rewrite (H1 m ltac:(lia)), (H2 m ltac:(lia)), !join_element.
  rewrite !app_nil_r, join_app, !join_singleton, cgi_escape_app.
  split; reflexivity.
Qed.

(** At [p("a<", "b")] and [p("a<b")]. *)
Lemma text_pieces_concatenate_witness :
  cgi_escape ("a<" +:+ "b") false = cgi_escape "a<" false +:+ cgi_escape "b" false
  /\ exists n, forall m, n <= m ->
       Element_str m (mkElement (mkTag "p" []) [VStr "a<"; VStr "b"] []) ∅
       = Element_str m (mkElement (mkTag "p" []) [VStr ("a<" +:+ "b")] []) ∅
       /\ Element_str m (mkElement (mkTag "p" []) [VStr ("a<" +:+ "b")] []) ∅
          = Some (Ok (Str.join (open_tag (mkTag "p" []) :: attrs_frags []) +:+ ">"
                      +:+ cgi_escape ("a<" +:+ "b") false +:+ close_tag (mkTag "p" []))).
Proof. exact (text_pieces_concatenate (mkTag "p" []) [] "a<" "b" ∅ eq_refl). Defined.

(** ** Children that do not show *)

Lemma flat_map_not_none cdata cs :
  flat_map (child_frags cdata) (List.filter not_none cs)
  = flat_map (child_frags cdata) cs.
Proof.
  induction cs as [|c cs IH]; [reflexivity|].
  destruct c; simpl; now rewrite IH.
Qed.

Lemma frags_nonempty (t : Tag) (attrs : dict) cs :
  cs <> [] ->
  Element_frags (mkElement t cs attrs)
  = open_tag t :: attrs_frags attrs
      ++ ">" :: flat_map (child_frags (option_on t "cdata_section" false)) cs
      ++ [close_tag t].
Proof. destruct cs; [congruence | reflexivity]. Qed.

(** [None] children can be put in or taken out anywhere without changing
    the fragments, as long as the list of children does not become empty. *)
Theorem none_children_transparent (t : Tag) (attrs : dict) (cs cs' : list value)
    (h : heap) :
  cs <> [] -> cs' <> [] ->
  forallb static cs = true -> forallb static cs' = true ->
  List.filter not_none cs = List.filter not_none cs' ->
  exists out,
    serializes (Element_iter (mkElement t cs attrs)) h out h
    /\ serializes (Element_iter (mkElement t cs' attrs)) h out h.
Proof.
  intros Hne Hne' Hs Hs' Heq.
  pose proof (static_serializes (mkElement t cs attrs) h Hs) as S.
  pose proof (static_serializes (mkElement t cs' attrs) h Hs') as S'.
  rewrite frags_nonempty in S, S' by assumption.
  rewrite <- (flat_map_not_none _ cs'), <- Heq, flat_map_not_none in S'.
  eauto.
Qed.

(** At [p(None, "a", None, "b")] and [p("a", "b", None)]. *)
Lemma none_children_transparent_witness :
  exists out,
    serializes (Element_iter (mkElement (mkTag "p" [])
                                [VNone; VStr "a"; VNone; VStr "b"] [])) ∅ out ∅
    /\ serializes (Element_iter (mkElement (mkTag "p" [])
                                   [VStr "a"; VStr "b"; VNone] [])) ∅ out ∅.
Proof.
  apply (none_children_transparent (mkTag "p" []) []
           [VNone; VStr "a"; VNone; VStr "b"] [VStr "a"; VStr "b"; VNone] ∅);
    try discriminate; reflexivity.
Defined.

(** A non-empty list among the children is read as its items: grouping
    children in a list, at any depth, does not change the fragments. *)
Theorem list_child_transparent (t : Tag) (attrs : dict) (pre l post : list value)
    (h : heap) :
  l <> [] ->
  forallb static (pre ++ l ++ post) = true ->
  exists out,
    serializes (Element_iter (mkElement t (pre ++ VList l :: post) attrs)) h out h
    /\ serializes (Element_iter (mkElement t (pre ++ l ++ post) attrs)) h out h.
Proof.
  intros Hl Hs.
  assert (Hs' : forallb static (pre ++ VList l :: post) = true).
  { rewrite !forallb_app in Hs. rewrite forallb_app.
    apply andb_prop in Hs as [Hpre Hs]. apply andb_prop in Hs as [Hl' Hpost].
    rewrite Hpre. simpl. destruct l as [|x l]; [congruence|].
    now rewrite Hl', Hpost. }
  pose proof (static_serializes (mkElement t (pre ++ l ++ post) attrs) h Hs) as S.
  pose proof (static_serializes (mkElement t (pre ++ VList l :: post) attrs) h Hs') as S'.
  rewrite frags_nonempty in S by (destruct pre, l; simpl; congruence).
  rewrite frags_nonempty in S' by (destruct pre; discriminate).
  rewrite !flat_map_app in S. rewrite flat_map_app in S'.
  cbn [flat_map child_frags] in S'.
  rewrite <- !app_assoc in S. rewrite <- !app_assoc in S'.
  eauto.
Qed.

(** At [ul("a", ["b", ["c"]], "d")], read as [ul("a", "b", ["c"], "d")]. *)
Lemma list_child_transparent_witness :
  exists out,
    serializes (Element_iter (mkElement (mkTag "ul" [])
                  ([VStr "a"] ++ VList [VStr "b"; VList [VStr "c"]] :: [VStr "d"]) []))
               ∅ out ∅
    /\ serializes (Element_iter (mkElement (mkTag "ul" [])
                     ([VStr "a"] ++ [VStr "b"; VList [VStr "c"]] ++ [VStr "d"]) []))
                  ∅ out ∅.
Proof.
  apply (list_child_transparent (mkTag "ul" []) [] [VStr "a"]
           [VStr "b"; VList [VStr "c"]] [VStr "d"] ∅);
    [discriminate | reflexivity].
Defined.

(** A mapping is merged into the attributes only as a positional argument:
    inside a list child it is iterated like any sequence, so its keys come
    out as text and its values are dropped. *)
Theorem nested_mapping_is_text (t : Tag) (attrs : dict) (kv : string * atom) (d : dict)
    (h : heap) :
  exists e,
    Tag_call t [VList [VDict (kv :: d)]] attrs = Ok e
    /\ attributes e = Dict.of_items (normalized_items attrs)
    /\ serializes (Element_iter e) h
         (open_tag t :: attrs_frags (attributes e)
            ++ ">" :: flat_map (text_frags (option_on t "cdata_section" false))
                        (Dict.keys (kv :: d))
            ++ [close_tag t]) h.
Proof.
  eexists. split; [reflexivity|]. split; [reflexivity|].
  pose proof (static_serializes
                (mkElement t [VList [VDict (kv :: d)]]
                   (Dict.of_items (normalized_items attrs))) h eq_refl) as S.
  rewrite frags_with_children in S. cbn [flat_map child_frags] in S.
  now rewrite !app_nil_r in S.
Qed.

(** At [p([{"b": 1, "a": 2}], id="x")]. *)
Lemma nested_mapping_is_text_witness :
  let q := Str.dquote in
  exists e,
    Tag_call (mkTag "p" []) [VList [VDict [("b", AInt 1); ("a", AInt 2)]]]
             [("id", AStr "x")] = Ok e
    /\ attributes e = [("id", AStr "x")]
    /\ serializes (Element_iter e) ∅
         ["<p"; " id=" +:+ q +:+ "x" +:+ q; ">"; "b"; "a"; "</p>"] ∅.
Proof.
  intros q.
  destruct (nested_mapping_is_text (mkTag "p" []) [("id", AStr "x")]
              ("b", AInt 1) [("a", AInt 2)] ∅) as (e & He & Ha & S).
  exists e. split; [exact He | split; [exact Ha|]].
  rewrite Ha in S. exact S.
Defined.

(** ** A generator child is consumed *)

Lemma gen_next_stop g (h : heap) b p :
  h !! g = Some (mkGen b p true) -> b p = GStop ->
  gen_next g h = (Exhausted, <[g := mkGen b p false]> h).
Proof. intros Hg Hb. unfold gen_next. rewrite Hg. simpl. now rewrite Hb. Qed.

Lemma gen_next_dead g (h : heap) b p :
  h !! g = Some (mkGen b p false) -> gen_next g h = (Exhausted, h).
Proof. intros Hg. unfold gen_next. now rewrite Hg. Qed.

(** An element whose only child is a generator of [k] strings serialises
    once with them; the generator is then exhausted, and a second
    serialisation of the same element has an empty body. *)
Theorem generator_child_one_shot (e : Element) (h : heap) (g : nat) (gen : generator)
    (f : nat -> string) (k : nat) :
  children e = [VGen g] ->
  h !! g = Some gen ->
  alive gen = true ->
  (forall j, j < k -> body gen (pos gen + j) = GYield (VStr (f j))) ->
  body gen (pos gen + k) = GStop ->
  let spent := <[g := mkGen (body gen) (pos gen + k) false]> h in
  serializes (Element_iter e) h
    ((open_tag (tag e) :: attrs_frags (attributes e) ++ [">"])
       ++ leaves (option_on (tag e) "cdata_section" false) f k
       ++ [close_tag (tag e)]) spent
  /\ serializes (Element_iter e) spent
       ((open_tag (tag e) :: attrs_frags (attributes e) ++ [">"])
          ++ [close_tag (tag e)]) spent.
Proof.
  intros Hc Hg Ha Hf Hstop spent.
  assert (Hne : children e <> []) by (rewrite Hc; discriminate).
  split.
  - apply runs_finish. rewrite app_assoc.
    eapply runs_trans; [exact (stream_runs e h g gen [] f k Hc Hg Ha Hf)|].
    eapply tau_runs.
    { simpl. unfold advance.
      rewrite (gen_next_stop g _ (body gen) (pos gen + k)
                 (lookup_insert_eq _ _ _) Hstop).
      rewrite insert_insert_eq. reflexivity. }
    eapply tau_runs; [reflexivity|]. apply runs_close.
  - assert (Hdead : spent !! g = Some (mkGen (body gen) (pos gen + k) false))
      by apply lookup_insert_eq.
    apply runs_finish.
    eapply runs_trans; [exact (runs_gt e [] spent Hne)|].
    rewrite Hc. eapply tau_runs; [reflexivity|].
    eapply tau_runs.
    { simpl. rewrite (gen_next_dead g _ _ _ Hdead). reflexivity. }
    eapply tau_runs; [reflexivity|]. apply runs_close.
Qed.

(** At [p(g)] where [g] yields ["a"] and ["b"] and returns. *)
Lemma generator_child_one_shot_witness :
  let gen := mkGen (fun j => match j with
                             | 0 => GYield (VStr "a")
                             | 1 => GYield (VStr "b")
                             | _ => GStop
                             end) 0 true in
  let e := mkElement (mkTag "p" []) [VGen 0] [] in
  let spent := <[0 := mkGen (body gen) 2 false]> ({[ 0 := gen ]} : heap) in
  serializes (Element_iter e) {[ 0 := gen ]} ["<p"; ">"; "a"; "b"; "</p>"] spent
  /\ serializes (Element_iter e) spent ["<p"; ">"; "</p>"] spent.
Proof.
  intros gen e spent.
  assert (Hg : ({[ 0 := gen ]} : heap) !! 0 = Some gen) by (vm_compute; reflexivity).
  apply (generator_child_one_shot e {[ 0 := gen ]} 0 gen
           (fun j => match j with 0 => "a" | _ => "b" end) 2 eq_refl Hg eq_refl).
  - intros j Hj. destruct j as [|[|j]]; [reflexivity | reflexivity | lia].
  - reflexivity.
Defined.

(** ** Children that cannot be flattened *)

(** A child that is true and has no [__iter__] raises the [TypeError] of
    [iter] when the flattening reaches it: the fragments of the opening and
    of the children before it have been emitted by then, and nothing of the
    children after it is. *)
Theorem bad_child_raises_when_reached (t : Tag) (attrs : dict)
    (pre post : list value) (v : value) (h : heap) :
  uniterable v = true ->
  forallb static pre = true ->
  breaks (Element_iter (mkElement t (pre ++ v :: post) attrs)) h
         ((open_tag t :: attrs_frags attrs ++ [">"])
            ++ flat_map (child_frags (option_on t "cdata_section" false)) pre)
         (TypeError ("'" +:+ type_name v +:+ "' object is not iterable")) h.
Proof.
  intros Hv Hs.
  assert (Hne : pre ++ v :: post <> []) by (destruct pre; discriminate).
  eapply runs_break.
  - eapply runs_trans;
      [exact (runs_gt (mkElement t (pre ++ v :: post) attrs) [] h Hne)|].
    apply (flattens_list pre); [|exact Hs].
    apply Forall_forall. intros x _. apply static_flattens.
  - destruct v as [ | b | n | s | d | l | t' | parts | e' | g]; try discriminate.
    + destruct b; [reflexivity | discriminate].
    + simpl in Hv. simpl. unfold flat_child, descend, truthy.
      now rewrite Hv.
    + reflexivity.
Qed.

(** At [p("a", 5, "b")]. *)
Lemma bad_child_raises_when_reached_witness :
  breaks (Element_iter (mkElement (mkTag "p" []) ([VStr "a"] ++ VInt 5 :: [VStr "b"]) []))
         ∅ ["<p"; ">"; "a"] (TypeError "'int' object is not iterable") ∅.
Proof.
  exact (bad_child_raises_when_reached (mkTag "p" []) [] [VStr "a"] [VStr "b"]
           (VInt 5) ∅ eq_refl eq_refl).
Defined.

(** * Generators of any static values *)

(** ** A value taken from any iterator *)

Lemma static_flattens_from : forall v, static v = true -> flattens_from v.
Proof.
  intros v Hs e it it' stack callers h h' Hit.
  assert (Hstep : forall r,
             (match flat_child e v (it' :: stack) h' with
              | FStop h1 => Emit (close_tag (tag e)) (mkFrame e AtEnd :: callers) h1
              | FRaise err h1 => Fail err h1
              | FTau stack' h1 => Tau (mkFrame e (InChildren stack') :: callers) h1
              | FYield (Text s) stack' h1 =>
                  if option_on (tag e) "cdata_section" false
                  then Emit "<![CDATA[" (mkFrame e (InCdata s stack') :: callers) h1
                  else Emit (cgi_escape s false)
                            (mkFrame e (InChildren stack') :: callers) h1
              | FYield (Nested e') stack' h1 =>
                  Tau (mkFrame e' AtStart :: mkFrame e (InChildren stack') :: callers) h1
              | FYield (Raw parts) stack' h1 =>
                  Tau (mkFrame e (InRaw parts stack') :: callers) h1
              end) = r ->
             step (mkFrame e (InChildren (it :: stack)) :: callers) h = r).
  { intros r <-. simpl. now rewrite Hit. }
  destruct v as [ | b | n | s | d | l | t | parts | e' | g]; try discriminate.
  - apply runs_tau. now apply Hstep.
  - simpl. unfold text_frags.
    destruct (option_on (tag e) "cdata_section" false) eqn:E.
    + change ["<![CDATA["; s; "]]>"] with (["<![CDATA["] ++ [s] ++ ["]]>"]).
      eapply runs_trans; [apply runs_emit; apply Hstep; reflexivity|].
      eapply runs_trans; apply runs_emit; reflexivity.
    + apply runs_emit. apply Hstep. reflexivity.
  - destruct d as [|kv d]; [discriminate|].
    pose proof (flattens_keys (Dict.keys (kv :: d)) e [] (it' :: stack) callers h') as R.
    rewrite !app_nil_r in R.
    eapply tau_runs; [apply Hstep; reflexivity|].
    eapply runs_then_tau; [exact R | reflexivity].
  - destruct l as [|x l]; [discriminate|].
    assert (HP : Forall (fun v => static v = true -> flattens v) (x :: l)).
    { apply Forall_forall. intros y _. apply static_flattens. }
    pose proof (flattens_list (x :: l) HP Hs e [] (it' :: stack) callers h') as R.
    rewrite !app_nil_r in R.
    eapply tau_runs; [apply Hstep; reflexivity|].
    eapply runs_then_tau; [exact R | reflexivity].
  - eapply tau_runs; [apply Hstep; reflexivity|]. apply runs_raw.
  - rewrite static_elem in Hs. rewrite child_frags_elem.
    eapply tau_runs; [apply Hstep; reflexivity|].
    apply element_runs; [|exact Hs].
    apply Forall_forall. intros y _. apply static_flattens.
Qed.

Lemma yielded_frags_succ cdata f k :
  yielded_frags cdata f (S k)
  = child_frags cdata (f 0) ++ yielded_frags cdata (fun j => f (S j)) k.
Proof.
  unfold yielded_frags. cbn [seq map flat_map].
  now rewrite <- seq_shift, map_map.
Qed.

(** Pulling [k] static values from a generator emits their reading, one
    value after the other, and leaves the generator advanced by exactly
    [k]. *)
Lemma values_run (e : Element) g outer callers b k : forall (h : heap) p f,
  h !! g = Some (mkGen b p true) ->
  (forall j, j < k -> b (p + j) = GYield (f j) /\ static (f j) = true) ->
  runs (mkFrame e (InChildren (ItGen g :: outer)) :: callers) h
       (yielded_frags (option_on (tag e) "cdata_section" false) f k)
       (mkFrame e (InChildren (ItGen g :: outer)) :: callers)
       (<[g := mkGen b (p + k) true]> h).
Proof.
  induction k as [|k IH]; intros h p f Hg Hf.
  - rewrite Nat.add_0_r, (insert_id _ _ _ Hg). apply runs_refl.
  - rewrite yielded_frags_succ.
    destruct (Hf 0 ltac:(lia)) as [H0 Hs0]. rewrite Nat.add_0_r in H0.
    eapply runs_trans.
    + apply (static_flattens_from (f 0) Hs0 e (ItGen g) (ItGen g) outer callers h
               (<[g := mkGen b (S p) true]> h)).
      simpl. now rewrite (gen_next_yield _ _ _ _ _ Hg H0).
    + replace (<[g := mkGen b (p + S k) true]> h)
        with (<[g := mkGen b (S p + k) true]> (<[g := mkGen b (S p) true]> h)).
      * apply IH; [apply lookup_insert_eq|].
        intros j Hj. replace (S p + j) with (p + S j) by lia. apply Hf. lia.
      * rewrite insert_insert_eq. now replace (S p + k) with (p + S k) by lia.
Qed.

(** The same for a generator met after static children. *)
Lemma generator_runs (e : Element) (h : heap) g gen pre rest f k :
  children e = pre ++ VGen g :: rest ->
  forallb static pre = true ->
  h !! g = Some gen -> alive gen = true ->
  (forall j, j < k -> body gen (pos gen + j) = GYield (f j) /\ static (f j) = true) ->
  runs (Element_iter e) h
       ((open_tag (tag e) :: attrs_frags (attributes e) ++ [">"])
          ++ flat_map (child_frags (option_on (tag e) "cdata_section" false)) pre
          ++ yielded_frags (option_on (tag e) "cdata_section" false) f k)
       [mkFrame e (InChildren [ItGen g; ItList rest])] (advance g k gen h).
Proof.
  intros Hc Hpre Hg Ha Hf.
  assert (Hne : children e <> []) by (rewrite Hc; destruct pre; discriminate).
  eapply runs_trans; [apply (runs_gt e [] h Hne)|].
  rewrite Hc. eapply runs_trans.
  - apply (flattens_list pre); [|exact Hpre].
    apply Forall_forall. intros y _. apply static_flattens.
  - eapply tau_runs; [reflexivity|].
    destruct gen as [b p a]. simpl in Ha, Hf. subst a.
    exact (values_run e g [ItList rest] [] b k h p f Hg Hf).
Qed.

(** ** Calls of [__next__] along a run *)

Lemma next_of_drain n : forall c h s out fin,
  drain n c h = (s :: out, fin) ->
  forall fuel, n <= fuel ->
  exists c1 h1 n1,
    next fuel c h = (Some s, Running c1 h1)
    /\ n1 <= n /\ drain n1 c1 h1 = (out, fin).
Proof.
  induction n as [|n IH]; intros c h s out fin H fuel Hfuel; [discriminate|].
  destruct fuel as [|fuel]; [lia|]. simpl in H |- *.
  destruct (step c h) as [s0 c0 h0 | c0 h0 | h0 | err h0]; try discriminate.
  - destruct (drain n c0 h0) as [out0 fin0] eqn:D. injection H as <- <- <-.
    exists c0, h0, n. repeat split; [lia | exact D].
  - destruct (IH _ _ _ _ _ H fuel ltac:(lia)) as (c1 & h1 & n1 & N & Hn & D).
    exists c1, h1, n1. repeat split; [exact N | lia | exact D].
Qed.

(** The first [m] fragments of a run are what [m] calls of [__next__]
    return, and the run goes on from where the last call stopped. *)
Lemma take_of_drain m : forall n c h out fin,
  drain n c h = (out, fin) ->
  m <= length out ->
  forall fuel, n <= fuel ->
  exists c' h' n',
    take m fuel c h = (firstn m out, Running c' h')
    /\ n' <= n /\ drain n' c' h' = (skipn m out, fin).
Proof.
  induction m as [|m IH]; intros n c h out fin D Hm fuel Hfuel.
  - exists c, h, n. repeat split; [lia | exact D].
  - destruct out as [|s out]; [simpl in Hm; lia|].
    destruct (next_of_drain n _ _ _ _ _ D fuel Hfuel) as (c1 & h1 & n1 & N & Hn & D1).
    destruct (IH n1 c1 h1 out fin D1 ltac:(simpl in Hm; lia) fuel ltac:(lia))
      as (c' & h' & n' & T & Hn' & D').
    exists c', h', n'. cbn [take firstn skipn]. rewrite N, T.
    repeat split; [lia | exact D'].
Qed.

(** ** Generators only advance *)

Lemma behind_refl h : behind h h.
Proof. intros g. destruct (h !! g); [lia | exact I]. Qed.

Lemma behind_trans h1 h2 h3 : behind h1 h2 -> behind h2 h3 -> behind h1 h3.
Proof.
  intros H12 H23 g. specialize (H12 g). specialize (H23 g).
  destruct (h1 !! g), (h2 !! g), (h3 !! g); try contradiction; [lia | exact I].
Qed.

Lemma behind_insert (h : heap) g gen b p a :
  h !! g = Some gen -> pos gen <= p -> behind h (<[g := mkGen b p a]> h).
Proof.
  intros Hg Hp g'. destruct (decide (g = g')) as [<-|Hne].
  - now rewrite lookup_insert_eq, Hg.
  - rewrite lookup_insert_ne by exact Hne. destruct (h !! g'); [lia | exact I].
Qed.

Lemma behind_pos (h h' : heap) g gen :
  behind h h' -> h !! g = Some gen ->
  exists gen', h' !! g = Some gen' /\ pos gen <= pos gen'.
Proof.
  intros H Hg. specialize (H g). rewrite Hg in H.
  destruct (h' !! g) as [gen'|]; [|contradiction]. now exists gen'.
Qed.

Lemma behind_pos_back (h h' : heap) g gen' :
  behind h h' -> h' !! g = Some gen' ->
  exists gen, h !! g = Some gen /\ pos gen <= pos gen'.
Proof.
  intros H Hg. specialize (H g). rewrite Hg in H.
  destruct (h !! g) as [gen|]; [|contradiction]. now exists gen.
Qed.

Lemma gen_next_behind g (h : heap) p h' : gen_next g h = (p, h') -> behind h h'.
Proof.
  unfold gen_next. destruct (h !! g) as [gen|] eqn:Hg.
  - destruct (alive gen).
    + destruct (body gen (pos gen)); intros [= <- <-];
        apply (behind_insert _ _ gen); auto.
    + intros [= <- <-]. apply behind_refl.
  - intros [= <- <-]. apply behind_refl.
Qed.

Lemma flat_children_behind (e : Element) stack (h : heap) :
  match flat_children e stack h with
  | FYield _ _ h' | FTau _ h' | FStop h' | FRaise _ h' => behind h h'
  end.
Proof.
  destruct stack as [|it outer]; simpl; [apply behind_refl|].
  destruct it as [l|g]; simpl.
  - destruct l as [|child l]; [apply behind_refl|].
    pose proof (flat_child_spec e child (ItList l :: outer) h) as H.
    destruct (flat_child e child (ItList l :: outer) h); try (subst; apply behind_refl).
    destruct H as [-> _]. apply behind_refl.
  - destruct (gen_next g h) as [p h'] eqn:E. apply gen_next_behind in E.
    destruct p as [child| |err]; try exact E.
    pose proof (flat_child_spec e child (ItGen g :: outer) h') as H.
    destruct (flat_child e child (ItGen g :: outer) h'); try (subst; exact E).
    destruct H as [-> _]. exact E.
Qed.

Lemma step_behind (c : config) (h : heap) : behind h (heap_after (step c h)).
Proof.
  destruct c as [|[e p] callers]; simpl; [apply behind_refl|].
  destruct p as [ | attrs | stack | s stack | stack | parts stack | ]; simpl;
    try apply behind_refl.
  - destruct attrs as [|[key v] attrs]; [destruct (children e)|];
      try destruct (option_on (tag e) "shorten_empty_tag" true); apply behind_refl.
  - pose proof (flat_children_behind e stack h) as H.
    destruct (flat_children e stack h) as [child st h1 | st h1 | h1 | err h1];
      try exact H.
    destruct child; try destruct (option_on (tag e) "cdata_section" false); exact H.
  - destruct parts; apply behind_refl.
Qed.

Lemma drain_behind n : forall c h out fin,
  drain n c h = (out, fin) -> behind h (heap_of fin).
Proof.
  induction n as [|n IH]; intros c h out fin; simpl.
  - intros [= <- <-]. apply behind_refl.
  - pose proof (step_behind c h) as Hs.
    destruct (step c h) as [s c1 h1 | c1 h1 | h1 | err h1]; simpl in Hs.
    + destruct (drain n c1 h1) as [out1 fin1] eqn:D. intros [= <- <-].
      exact (behind_trans _ _ _ Hs (IH _ _ _ _ D)).
    + intros D. exact (behind_trans _ _ _ Hs (IH _ _ _ _ D)).
    + intros [= <- <-]. exact Hs.
    + intros [= <- <-]. exact Hs.
Qed.

Lemma next_behind fuel : forall c h r fin,
  next fuel c h = (r, fin) -> behind h (heap_of fin).
Proof.
  induction fuel as [|fuel IH]; intros c h r fin; simpl.
  - intros [= <- <-]. apply behind_refl.
  - pose proof (step_behind c h) as Hs.
    destruct (step c h) as [s c1 h1 | c1 h1 | h1 | err h1]; simpl in Hs.
    + intros [= <- <-]. exact Hs.
    + intros N. exact (behind_trans _ _ _ Hs (IH _ _ _ _ N)).
    + intros [= <- <-]. exact Hs.
    + intros [= <- <-]. exact Hs.
Qed.

Lemma take_behind m fuel : forall c h out fin,
  take m fuel c h = (out, fin) -> behind h (heap_of fin).
Proof.
  induction m as [|m IH]; intros c h out fin; simpl.
  - intros [= <- <-]. apply behind_refl.
  - destruct (next fuel c h) as [r fin1] eqn:N. apply next_behind in N.
    destruct r as [s|]; [|intros [= <- <-]; exact N].
    destruct fin1 as [h1 | err h1 | c1 h1]; try (intros [= <- <-]; exact N).
    destruct (take m fuel c1 h1) as [out1 fin2] eqn:T. intros [= <- <-].
    exact (behind_trans _ _ _ N (IH _ _ _ _ T)).
Qed.

(** A call of [__next__] returns the first fragment of the run it is part
    of, whatever moves it is allowed. *)
Lemma next_drain_agree n : forall c h s out fin fuel s' c2 h2,
  drain n c h = (s :: out, fin) ->
  next fuel c h = (Some s', Running c2 h2) ->
  s' = s /\ exists n2, drain n2 c2 h2 = (out, fin).
Proof.
  induction n as [|n IH]; intros c h s out fin fuel s' c2 h2; simpl; [discriminate|].
  destruct fuel as [|fuel]; simpl; [discriminate|].
  destruct (step c h) as [s0 c0 h0 | c0 h0 | h0 | err h0]; try discriminate.
  - destruct (drain n c0 h0) as [out0 fin0] eqn:D.
    intros [= <- <- <-] [= <- <- <-]. split; [reflexivity | now exists n].
  - apply IH.
Qed.

(** A call of [__next__] that returns a fragment goes through the
    configuration reached before that fragment, and one move further. *)
Lemma next_passes n : forall c h c1 h1 fuel s c2 h2,
  drain n c h = ([], Running c1 h1) ->
  next fuel c h = (Some s, Running c2 h2) ->
  behind (heap_after (step c1 h1)) h2.
Proof.
  induction n as [|n IH]; intros c h c1 h1 fuel s c2 h2; simpl.
  - intros [= <- <-]. destruct fuel as [|fuel]; simpl; [discriminate|].
    destruct (step c h) as [s0 c0 h0 | c0 h0 | h0 | err h0]; try discriminate.
    + intros [= <- <- <-]. apply behind_refl.
    + intros N. exact (next_behind _ _ _ _ _ N).
  - destruct fuel as [|fuel]; simpl; [discriminate|].
    destruct (step c h) as [s0 c0 h0 | c0 h0 | h0 | err h0]; try discriminate.
    + destruct (drain n c0 h0). discriminate.
    + apply IH.
Qed.

(** More calls than a run has fragments, each returning one, go one move
    beyond that run. *)
Lemma take_passes out1 : forall n c h c1 h1 m fuel out c' h',
  drain n c h = (out1, Running c1 h1) ->
  take m fuel c h = (out, Running c' h') ->
  length out = m ->
  length out1 < m ->
  behind (heap_after (step c1 h1)) h'.
Proof.
  induction out1 as [|s out1 IH]; intros n c h c1 h1 m fuel out c' h' D T Hlen Hm;
    (destruct m as [|m]; [simpl in Hm; lia|]); simpl in T;
    destruct (next fuel c h) as [[s'|] [h2 | err h2 | c2 h2]] eqn:N;
    try discriminate;
    try (injection T as <- _ _; discriminate);
    destruct (take m fuel c2 h2) as [out2 fin2] eqn:T2;
    injection T as <- ->; simpl in Hlen; injection Hlen as Hlen.
  - exact (behind_trans _ _ _ (next_passes _ _ _ _ _ _ _ _ _ D N)
             (take_behind _ _ _ _ _ _ T2)).
  - destruct (next_drain_agree _ _ _ _ _ _ _ _ _ _ D N) as [_ [n2 D2]].
    apply (IH n2 c2 h2 c1 h1 m fuel out2 c' h' D2 T2 Hlen). simpl in Hm. lia.
Qed.

(** Resuming a generator that yields moves it by one value, whatever the
    value is. *)
Lemma step_pulls (e : Element) g outer callers (h : heap) b p v :
  h !! g = Some (mkGen b p true) -> b p = GYield v ->
  heap_after (step (mkFrame e (InChildren (ItGen g :: outer)) :: callers) h)
  = <[g := mkGen b (S p) true]> h.
Proof.
  intros Hg Hb. simpl. rewrite (gen_next_yield _ _ _ _ _ Hg Hb).
  pose proof (flat_child_spec e v (ItGen g :: outer) (<[g := mkGen b (S p) true]> h)) as H.
  destruct (flat_child e v (ItGen g :: outer) (<[g := mkGen b (S p) true]> h))
    as [child st h1 | st h1 | h1 | err h1]; simpl.
  - subst h1. destruct child; try destruct (option_on (tag e) "cdata_section" false);
      reflexivity.
  - now subst.
  - now subst.
  - now destruct H as [-> _].
Qed.

(** ** Laziness *)

(** C6: for an element that has a generator among its children, after
    children that are static, and whatever the generator yields as long as
    the values are static (strings, RawStrings, elements, [None], non-empty
    lists and dicts, nested at will): the iteration returns the opening,
    the reading of the children before the generator and the reading of its
    first [k] values, in this order, with the generator resumed [k] times;
    the calls of [__next__] that return the first [m] of these fragments
    have resumed it [k] times at most, so not at all as long as the
    fragments are those of the opening and of the children before it; and
    calls that return more fragments than the first [j] values account for
    have resumed it more than [j] times.  Nothing is assumed on what the
    generator does after its first [k] values: it may go on for ever. *)
Theorem serialization_is_lazy (e : Element) (h : heap) (g : nat) (gen : generator)
    (pre rest : list value) (f : nat -> value) (k : nat) :
  children e = pre ++ VGen g :: rest ->
  forallb static pre = true ->
  h !! g = Some gen ->
  alive gen = true ->
  (forall j, j < k -> body gen (pos gen + j) = GYield (f j) /\ static (f j) = true) ->
  let cdata := option_on (tag e) "cdata_section" false in
  let out j := (open_tag (tag e) :: attrs_frags (attributes e) ++ [">"])
                 ++ flat_map (child_frags cdata) pre ++ yielded_frags cdata f j in
  (exists c, runs (Element_iter e) h (out k) c (advance g k gen h))
  /\ (forall m, m <= length (out k) ->
        exists fuel c h' gen',
          take m fuel (Element_iter e) h = (firstn m (out k), Running c h')
          /\ h' !! g = Some gen'
          /\ pos gen <= pos gen' <= pos gen + k)
  /\ (forall j m fuel outm c h',
        j < k -> length (out j) < m ->
        take m fuel (Element_iter e) h = (outm, Running c h') ->
        length outm = m ->
        exists gen', h' !! g = Some gen' /\ pos gen + j < pos gen').
Proof.
  intros Hc Hpre Hg Ha Hf cdata out.
  pose proof (generator_runs e h g gen pre rest f k Hc Hpre Hg Ha Hf) as R.
  split; [|split].
  - eexists. exact R.
  - intros m Hm. destruct R as [n D].
    destruct (take_of_drain m n _ _ _ _ D Hm n (le_n n)) as (c' & h' & n' & T & _ & D').
    pose proof (take_behind _ _ _ _ _ _ T) as B1.
    pose proof (drain_behind _ _ _ _ _ D') as B2. simpl in B1, B2.
    destruct (behind_pos _ _ g gen B1 Hg) as (gen' & Hg' & L1).
    destruct (behind_pos _ _ g gen' B2 Hg') as (gen2 & Hg2 & L2).
    unfold advance in Hg2. rewrite lookup_insert_eq in Hg2. injection Hg2 as <-.
    simpl in L2. exists n, c', h', gen'. repeat split; assumption.
  - intros j m fuel outm c h' Hj Hm T Hlen.
    assert (Hfj : forall i, i < j ->
                    body gen (pos gen + i) = GYield (f i) /\ static (f i) = true)
      by (intros i Hi; apply Hf; lia).
    destruct (generator_runs e h g gen pre rest f j Hc Hpre Hg Ha Hfj) as [n D].
    pose proof (take_passes _ _ _ _ _ _ _ _ _ _ _ D T Hlen Hm) as B.
    unfold advance in B.
    rewrite (step_pulls e g [ItList rest] [] _ (body gen) (pos gen + j) (f j)
               (lookup_insert_eq _ _ _) (proj1 (Hf j Hj))) in B.
    destruct (behind_pos _ _ g _ B (lookup_insert_eq _ _ _)) as (gen' & Hg' & L).
    simpl in L. exists gen'. split; [exact Hg' | lia].
Qed.

(** At [ul("a", g, class_="n")] where [g] yields the element [li("x")] for
    ever: the run over the first two items; four calls leave [g] untouched;
    nine calls that return nine fragments have resumed it twice at least. *)
Lemma serialization_is_lazy_witness :
  let q := Str.dquote in
  let li := elem (mkTag "li" []) [VStr "x"] [] in
  let gen := mkGen (fun _ => GYield li) 0 true in
  let e := mkElement (mkTag "ul" []) [VStr "a"; VGen 0] [("class", AStr "n")] in
  let h : heap := {[ 0 := gen ]} in
  (exists c, runs (Element_iter e) h
               ["<ul"; " class=" +:+ q +:+ "n" +:+ q; ">"; "a";
                "<li"; ">"; "x"; "</li>"; "<li"; ">"; "x"; "</li>"]
               c (advance 0 2 gen h))
  /\ (exists fuel c h' gen',
        take 4 fuel (Element_iter e) h
        = (["<ul"; " class=" +:+ q +:+ "n" +:+ q; ">"; "a"], Running c h')
        /\ h' !! 0 = Some gen' /\ 0 <= pos gen' <= 0)
  /\ (forall fuel outm c h',
        take 9 fuel (Element_iter e) h = (outm, Running c h') ->
        length outm = 9 ->
        exists gen', h' !! 0 = Some gen' /\ 1 < pos gen').
Proof.
  intros q li gen e h.
  assert (Hg : h !! 0 = Some gen) by (vm_compute; reflexivity).
  destruct (serialization_is_lazy e h 0 gen [VStr "a"] [] (fun _ => li) 2
              eq_refl eq_refl Hg eq_refl (fun _ _ => conj eq_refl eq_refl))
    as (H1 & _ & H3).
  destruct (serialization_is_lazy e h 0 gen [VStr "a"] [] (fun _ => li) 0
              eq_refl eq_refl Hg eq_refl (fun _ _ => conj eq_refl eq_refl))
    as (_ & H2 & _).
  split; [exact H1 | split].
  - destruct (H2 4) as (fuel & c & h' & gen' & T & L & P).
    + vm_compute. repeat constructor.
    + exists fuel, c, h', gen'. split; [exact T | split; [exact L | exact P]].
  - intros fuel outm c h' T Hlen. apply (H3 1 9 fuel outm c h'); try assumption.
    + repeat constructor.
    + vm_compute. repeat constructor.
Defined.

(** ** Children that are false *)

Lemma no_false_child_keys ks : forallb no_false_child (map VStr ks) = true.
Proof. induction ks as [|k ks IH]; [reflexivity | exact IH]. Qed.

Lemma no_false_child_elem (e : Element) :
  no_false_child (VElem e) = forallb no_false_child (children e).
Proof. now destruct e. Qed.

(** A child that is not false is iterated itself: [seq or self.children]
    is [seq]. *)
Lemma descend_no_false_child (e : Element) v :
  no_false_child v = true ->
  match v with VNone | VStr _ => True | _ => descend e v = py_iter v end.
Proof.
  destruct v as [ | b | n | s | d | l | t | parts | e' | g]; unfold descend; cbn;
    try (intros _; exact I); try reflexivity.
  - now intros ->.
  - now intros ->.
  - now destruct d.
  - now destruct l.
Qed.

Lemma heap_no_false_child_same_code h h' :
  same_code h h' -> heap_no_false_child h -> heap_no_false_child h'.
Proof.
  intros S H g gen' k v Hg Hb. specialize (S g). rewrite Hg in S.
  destruct (h !! g) as [gen|] eqn:E; [|discriminate].
  injection S as S. apply (H g gen k v E). now rewrite <- S.
Qed.

Lemma flat_child_sound (e : Element) v stack h :
  no_false_child v = true ->
  forallb iterator_no_false_child stack = true ->
  match flat_child e v stack h with
  | FYield (Nested e') st _ =>
      forallb no_false_child (children e') = true
      /\ forallb iterator_no_false_child st = true
  | FYield (Text _) st _ | FYield (Raw _) st _ | FTau st _ =>
      forallb iterator_no_false_child st = true
  | FStop _ | FRaise _ _ => True
  end.
Proof.
  intros Hv Hst. pose proof (descend_no_false_child e v Hv) as Hd.
  destruct v as [ | b | n | s | d | l | t | parts | e' | g]; cbn [flat_child];
    try rewrite Hd; cbn [py_iter]; try exact I; try exact Hst.
  - cbn [forallb iterator_no_false_child]. now rewrite no_false_child_keys.
  - cbn [forallb iterator_no_false_child]. rewrite Hst.
    destruct l as [|x l]; [discriminate|]. cbn [no_false_child] in Hv. now rewrite Hv.
  - rewrite no_false_child_elem in Hv. now split.
Qed.

Lemma iter_next_sound it (h : heap) :
  iterator_no_false_child it = true -> heap_no_false_child h ->
  match iter_next it h with
  | (Item v, it', _) => no_false_child v = true /\ iterator_no_false_child it' = true
  | (Exhausted, _, _) | (Broke _, _, _) => True
  end.
Proof.
  intros Hit Hh. destruct it as [l|g]; cbn.
  - destruct l as [|v l]; [exact I|]. cbn in Hit. now apply andb_prop in Hit.
  - unfold gen_next. destruct (h !! g) as [gen|] eqn:Hg; [|exact I].
    destruct (alive gen); [|exact I].
    destruct (body gen (pos gen)) as [v| |err] eqn:Hb; try exact I.
    split; [exact (Hh g gen _ v Hg Hb) | reflexivity].
Qed.

Lemma flat_children_sound (e : Element) stack (h : heap) :
  forallb iterator_no_false_child stack = true -> heap_no_false_child h ->
  match flat_children e stack h with
  | FYield (Nested e') st _ =>
      forallb no_false_child (children e') = true
      /\ forallb iterator_no_false_child st = true
  | FYield (Text _) st _ | FYield (Raw _) st _ | FTau st _ =>
      forallb iterator_no_false_child st = true
  | FStop _ | FRaise _ _ => True
  end.
Proof.
  intros Hst Hh. destruct stack as [|it outer]; [exact I|].
  cbn [forallb] in Hst. apply andb_prop in Hst as [Hit Houter].
  pose proof (iter_next_sound it h Hit Hh) as N. cbn [flat_children].
  destruct (iter_next it h) as [[[v| |err] it'] h']; [|exact Houter|exact I].
  destruct N as [Hv Hit']. apply flat_child_sound; [exact Hv|].
  cbn [forallb]. now rewrite Hit', Houter.
Qed.

(** A move from an iterator that holds no false child leads to such an
    iterator, over such a heap. *)
Lemma step_sound (c : config) (h : heap) :
  config_no_false_child c = true -> heap_no_false_child h ->
  config_no_false_child (target (step c h)) = true
  /\ heap_no_false_child (heap_after (step c h)).
Proof.
  intros Hc Hh. split;
    [|exact (heap_no_false_child_same_code _ _ (proj1 (step_spec c h)) Hh)].
  destruct c as [|[e p] callers]; [reflexivity|].
  cbn [config_no_false_child forallb] in Hc. apply andb_prop in Hc as [Hf Hcallers].
  unfold frame_no_false_child in Hf. cbn [self at_pc] in Hf.
  apply andb_prop in Hf as [He Hp].
  assert (At : forall p', pc_no_false_child p' = true ->
                 config_no_false_child (mkFrame e p' :: callers) = true).
  { intros p' Hp'. cbn [config_no_false_child forallb].
    unfold frame_no_false_child at 1.
    cbn [self at_pc]. now rewrite He, Hp', Hcallers. }
  destruct p as [ | attrs | stack | s stack | stack | parts stack | ];
    cbn [step self at_pc].
  - now apply At.
  - destruct attrs as [|[key v] attrs].
    + destruct (children e) as [|c0 cs] eqn:Ec.
      * destruct (option_on (tag e) "shorten_empty_tag" true); now apply At.
      * cbn [target]. apply At.
        change (forallb no_false_child (c0 :: cs) && true = true). now rewrite He.
    + now apply At.
  - cbn [pc_no_false_child] in Hp.
    pose proof (flat_children_sound e stack h Hp Hh) as F.
    destruct (flat_children e stack h) as [[s|parts|e'] st h1 | st h1 | h1 | err h1];
      cbn [target].
    + destruct (option_on (tag e) "cdata_section" false); now apply At.
    + now apply At.
    + destruct F as [F1 F2]. cbn [config_no_false_child forallb].
      unfold frame_no_false_child at 1. cbn [self at_pc pc_no_false_child].
      rewrite F1. cbn [andb]. now apply At.
    + now apply At.
    + now apply At.
    + reflexivity.
  - now apply At.
  - now apply At.
  - destruct parts as [|p parts]; now apply At.
  - exact Hcallers.
Qed.

Lemma drain_sound n : forall c h out c' h',
  config_no_false_child c = true -> heap_no_false_child h ->
  drain n c h = (out, Running c' h') ->
  config_no_false_child c' = true /\ heap_no_false_child h'.
Proof.
  induction n as [|n IH]; intros c h out c' h' Hc Hh; simpl.
  - intros [= <- <- <-]. now split.
  - destruct (step_sound c h Hc Hh) as [Sc Sh].
    destruct (step c h) as [s c1 h1 | c1 h1 | h1 | err h1]; try discriminate;
      simpl in Sc, Sh.
    + destruct (drain n c1 h1) as [out1 fin1] eqn:D. intros [= <- ->].
      exact (IH _ _ _ _ _ Sc Sh D).
    + apply IH; assumption.
Qed.

(** An iterator that holds no false child does not fall back on
    [self.children]. *)
Lemma no_false_child_no_fall_back (c : config) (h : heap) :
  config_no_false_child c = true -> heap_no_false_child h -> falls_back c h = false.
Proof.
  intros Hc Hh. destruct c as [|[e p] callers]; [reflexivity|].
  destruct p as [ | attrs | [|it outer] | s stack | stack | parts stack | ];
    try reflexivity.
  cbn [config_no_false_child forallb] in Hc. apply andb_prop in Hc as [Hf _].
  unfold frame_no_false_child in Hf. cbn [self at_pc pc_no_false_child forallb] in Hf.
  apply andb_prop in Hf as [_ Hp]. apply andb_prop in Hp as [Hit _].
  pose proof (iter_next_sound it h Hit Hh) as N. cbn [falls_back].
  destruct (iter_next it h) as [[[v| |err] it'] h']; try reflexivity.
  destruct N as [Hv _].
  destruct v as [ | b | n | s | d | l | t | parts | e' | g]; cbn in Hv |- *;
    try reflexivity.
  - now rewrite Hv.
  - now rewrite Hv.
  - now destruct d.
  - now destruct l.
Qed.

(** ** Exceptions during iteration *)

(** C3 (as the code has it): when the child tree is static the iteration
    completes with the reading of the tree and raises nothing.  When no
    child, at any depth, and no value that a generator of the heap can
    yield is a false value other than [None] and the empty string (so no
    [False], no [0], no empty list or dict), and no generator yields
    generators, no iterator reached by the iteration falls back on
    [self.children], and an exception that ends the iteration is the
    [TypeError] of [iter] on a child that is a [bool], an [int] or a [Tag],
    or an exception raised by a generator of the heap.
    And when a generator child, met after static children, raises after [k]
    static values, the iteration raises that very exception after the
    fragments of the opening, of the children before the generator and of
    those [k] values, and leaves the generator exhausted. *)
Theorem iteration_errors (e : Element) (h : heap) :
  (forallb static (children e) = true ->
     serializes (Element_iter e) h (Element_frags e) h
     /\ forall out err h', ~ breaks (Element_iter e) h out err h')
  /\ (forallb no_false_child (children e) = true ->
      heap_no_false_child h ->
      yields_no_generator h ->
      (forall out c' h',
         runs (Element_iter e) h out c' h' -> falls_back c' h' = false)
      /\ (forall out err h',
            breaks (Element_iter e) h out err h' ->
            raised_by_iter err \/ raised_by_generator h err))
  /\ (forall g gen pre rest f k err,
        children e = pre ++ VGen g :: rest ->
        forallb static pre = true ->
        h !! g = Some gen ->
        alive gen = true ->
        (forall j, j < k ->
           body gen (pos gen + j) = GYield (f j) /\ static (f j) = true) ->
        body gen (pos gen + k) = GRaise err ->
        breaks (Element_iter e) h
          ((open_tag (tag e) :: attrs_frags (attributes e) ++ [">"])
             ++ flat_map (child_frags (option_on (tag e) "cdata_section" false)) pre
             ++ yielded_frags (option_on (tag e) "cdata_section" false) f k)
          err (<[g := mkGen (body gen) (pos gen + k) false]> h)).
Proof.
  split; [|split].
  - intros Hs. pose proof (static_serializes e h Hs) as S.
    split; [exact S|]. intros out err h' B.
    exact (serializes_not_breaks _ _ _ _ _ _ _ S B).
  - intros He Hh _. split.
    + intros out c' h' [n D].
      assert (H0 : config_no_false_child (Element_iter e) = true).
      { unfold Element_iter, config_no_false_child, frame_no_false_child.
        cbn [forallb self at_pc pc_no_false_child]. now rewrite He. }
      destruct (drain_sound n _ _ _ _ _ H0 Hh D) as [Hc' Hh'].
      now apply no_false_child_no_fall_back.
    + intros out err h' [n Hn]. exact (drain_errors n _ _ _ _ _ Hn).
  - intros g gen pre rest f k err Hc Hpre Hg Ha Hf Herr.
    eapply runs_break;
      [exact (generator_runs e h g gen pre rest f k Hc Hpre Hg Ha Hf)|].
    simpl. unfold advance.
    rewrite (gen_next_raise g _ (body gen) (pos gen + k) err
               (lookup_insert_eq _ _ _) Herr).
    now rewrite insert_insert_eq.
Qed.

(** At [p("a", None, "b")], and at [p("a", g)] where [g] yields the element
    [em("0")] and then raises. *)
Lemma iteration_errors_witness :
  let boom := Exception "boom" in
  let item := elem (mkTag "em" []) [VStr "0"] [] in
  let gen := mkGen (fun j => match j with 0 => GYield item | _ => GRaise boom end)
                   0 true in
  let e := mkElement (mkTag "p" []) [VStr "a"; VGen 0] [] in
  serializes (Element_iter (mkElement (mkTag "p" []) [VStr "a"; VNone; VStr "b"] [])) ∅
             ["<p"; ">"; "a"; "b"; "</p>"] ∅
  /\ falls_back (Element_iter e) {[ 0 := gen ]} = false
  /\ (raised_by_iter boom \/ raised_by_generator {[ 0 := gen ]} boom)
  /\ breaks (Element_iter e) {[ 0 := gen ]}
            ["<p"; ">"; "a"; "<em"; ">"; "0"; "</em>"] boom
            (<[ 0 := mkGen (body gen) 1 false ]> {[ 0 := gen ]}).
Proof.
  intros boom item gen e.
  assert (Hg : ({[ 0 := gen ]} : heap) !! 0 = Some gen) by (vm_compute; reflexivity).
  assert (Hh : heap_no_false_child {[ 0 := gen ]}).
  { intros g gen0 k v H Hb. apply lookup_singleton_Some in H as [_ <-].
    destruct k; [injection Hb as <-; reflexivity | discriminate]. }
  assert (Hy : yields_no_generator {[ 0 := gen ]}).
  { intros g gen0 k v H Hb. apply lookup_singleton_Some in H as [_ <-].
    destruct k; [injection Hb as <-; reflexivity | discriminate]. }
  destruct (iteration_errors e {[ 0 := gen ]}) as (_ & H2 & H3).
  destruct (H2 eq_refl Hh Hy) as [Hfb Herr].
  assert (B : breaks (Element_iter e) {[ 0 := gen ]}
                ["<p"; ">"; "a"; "<em"; ">"; "0"; "</em>"] boom
                (<[ 0 := mkGen (body gen) 1 false ]> {[ 0 := gen ]})).
  { apply (H3 0 gen [VStr "a"] [] (fun _ => item) 1 boom eq_refl eq_refl Hg eq_refl).
    - intros j Hj. destruct j; [split; reflexivity | lia].
    - reflexivity. }
  split; [|split; [|split]].
  - apply (iteration_errors (mkElement (mkTag "p" []) [VStr "a"; VNone; VStr "b"] []) ∅).
    reflexivity.
  - apply (Hfb [] _ _). exists 0. reflexivity.
  - exact (Herr _ _ _ B).
  - exact B.
Defined.
